(** * Sparse matrices of [matrix.js]: text codec and arithmetic

    A shallow embedding of [src/matrix.js] and the properties of its
    sparse-matrix model, its text format and its three operators.

    Modelling conventions.
    - A JS string is the list of its UTF-16 code units ([list N]).
    - A JS number is an integer of [Z]; the program only ever builds numbers
      from decimal literals with [parseInt] and with [+], [-], [*], which are
      exact on integers as long as they stay within the safe range of a
      double.  Number-to-string conversion is the plain decimal notation,
      which is what JS prints below 10^21.
    - The property bag [matrix.elements] is an association list in insertion
      order, which is the order [for ... in] enumerates keys that are not
      array indices.  The only writer of keys is [setMatrixElement], which
      builds the key from two numbers as [`${row},${col}`]; a key is
      represented by that pair of numbers, and [key_text] gives the string
      the program stores ([key_text_coordinates] shows that the string
      determines the pair, which is what [key.split(',').map(Number)] relies
      on).
    - Exceptions are the [Throw] outcome of a result type. *)

From Stdlib Require Import ZArith NArith List Lia String Ascii Decimal DecimalN.
From stdpp Require Import base tactics option list numbers gmap.
Import ListNotations.

(** ** Strings *)

Abbreviation char := N.
Abbreviation jsstring := (list N).

Module Text.
Local Open Scope N_scope.

(** Code units of a literal. *)
Definition str (s : string) : jsstring :=
  map N_of_ascii (list_ascii_of_string s).

Definition LF : char := 10.
Definition COMMA : char := 44.
Definition MINUS : char := 45.
Definition LPAREN : char := 40.
Definition RPAREN : char := 41.

(** [\d] *)
Definition is_digit (c : char) : bool := (48 <=? c) && (c <=? 57).

(** The WhiteSpace and LineTerminator code points: what [trim()] strips and
    what [\s] matches. *)
Definition is_space (c : char) : bool :=
  ((9 <=? c) && (c <=? 13)) || (c =? 32) || (c =? 160) || (c =? 5760)
  || ((8192 <=? c) && (c <=? 8202)) || (c =? 8232) || (c =? 8233)
  || (c =? 8239) || (c =? 8287) || (c =? 12288) || (c =? 65279).

Fixpoint take_while (p : char -> bool) (s : jsstring) : jsstring :=
  match s with
  | c :: s' => if p c then c :: take_while p s' else []
  | [] => []
  end.

Fixpoint drop_while (p : char -> bool) (s : jsstring) : jsstring :=
  match s with
  | c :: s' => if p c then drop_while p s' else s
  | [] => []
  end.

(** The run [p] repeats over ends where [s] starts. *)
Definition stops (p : char -> bool) (s : jsstring) : Prop :=
  match s with
  | [] => True
  | c :: _ => p c = false
  end.

(** [String.prototype.trim] *)
Definition trim (s : jsstring) : jsstring :=
  rev (drop_while is_space (rev (drop_while is_space s))).

(** [s.split(sep)] for a one-character separator: never empty, the empty
    string splits into one empty part. *)
Fixpoint split_on (sep : char) (s : jsstring) : list jsstring :=
  match s with
  | [] => [[]]
  | c :: s' =>
      if c =? sep then [] :: split_on sep s'
      else match split_on sep s' with
           | l :: ls => (c :: l) :: ls
           | [] => [[c]]
           end
  end.

(** [parts.join(sep)] *)
Fixpoint join (sep : char) (ls : list jsstring) : jsstring :=
  match ls with
  | [] => []
  | [l] => l
  | l :: ls' => l ++ sep :: join sep ls'
  end.

(** *** Decimal numerals *)

Definition digit_of (c : char) : N := c - 48.

(** Value of a run of decimal digits, as [parseInt] computes it. *)
Definition digits_value (ds : jsstring) : N :=
  fold_left (fun acc c => 10 * acc + digit_of c) ds 0.

(** [parseInt] on a capture of [-?\d+]. *)
Definition parseInt (s : jsstring) : Z :=
  match s with
  | c :: ds => if c =? MINUS then (- Z.of_N (digits_value ds))%Z
               else Z.of_N (digits_value s)
  | [] => 0%Z
  end.

Fixpoint uint_chars (u : Decimal.uint) : jsstring :=
  match u with
  | Nil => []
  | D0 u => 48 :: uint_chars u
  | D1 u => 49 :: uint_chars u
  | D2 u => 50 :: uint_chars u
  | D3 u => 51 :: uint_chars u
  | D4 u => 52 :: uint_chars u
  | D5 u => 53 :: uint_chars u
  | D6 u => 54 :: uint_chars u
  | D7 u => 55 :: uint_chars u
  | D8 u => 56 :: uint_chars u
  | D9 u => 57 :: uint_chars u
  end.

(** Number-to-string conversion of a non-negative integer. *)
Definition show_N (n : N) : jsstring := uint_chars (N.to_uint n).

(** Number-to-string conversion of an integer ([`${n}`]). *)
Definition show_Z (z : Z) : jsstring :=
  match z with
  | Zneg p => MINUS :: show_N (Npos p)
  | _ => show_N (Z.to_N z)
  end.

(** *** The three regular expressions of the parser

    Every quantifier in them is followed by a character outside the class it
    repeats (or by nothing), so the greedy match is the only candidate and
    backtracking never finds another one: the matchers below consume the
    longest run and go on. None of the expressions is anchored at the end. *)

Definition expect (c : char) (s : jsstring) : option jsstring :=
  match s with
  | x :: s' => if x =? c then Some s' else None
  | [] => None
  end.

Fixpoint strip_prefix (p s : jsstring) : option jsstring :=
  match p with
  | [] => Some s
  | c :: p' => match expect c s with
               | Some s' => strip_prefix p' s'
               | None => None
               end
  end.

(** [(\d+)]: the capture and the rest, [None] without a digit. *)
Definition digits1 (s : jsstring) : option (jsstring * jsstring) :=
  match take_while is_digit s with
  | [] => None
  | ds => Some (ds, drop_while is_digit s)
  end.

(** [/^name(\d+)/.exec(line)], for [name] one of [rows=], [cols=]: capture 1. *)
Definition match_dimension (name line : jsstring) : option jsstring :=
  match strip_prefix name line with
  | Some s => match digits1 s with
              | Some (ds, _) => Some ds
              | None => None
              end
  | None => None
  end.

(** [(-?\d+)] *)
Definition signed_digits1 (s : jsstring) : option (jsstring * jsstring) :=
  match expect MINUS s with
  | Some s' => match digits1 s' with
               | Some (ds, rest) => Some (MINUS :: ds, rest)
               | None => None
               end
  | None => digits1 s
  end.

(** [/^\((\d+),\s*(\d+),\s*(-?\d+)\)/.exec(line)]: captures 1, 2 and 3. *)
Definition match_element (line : jsstring)
  : option (jsstring * jsstring * jsstring) :=
  s ← expect LPAREN line;
  '(r, s) ← digits1 s;
  s ← expect COMMA s;
  '(c, s) ← digits1 (drop_while is_space s);
  s ← expect COMMA s;
  '(v, s) ← signed_digits1 (drop_while is_space s);
  _ ← expect RPAREN s;
  Some (r, c, v).

End Text.

(** ** The sparse matrix *)

Module Matrix.
Import Text.
Local Open Scope Z_scope.

(** The messages the program throws, by throw site. *)
Inductive error :=
| NotEnoughLines
| InvalidDimensionFormat
| InvalidFormatAtLine (n : nat) (line : jsstring)
| AdditionDimensions
| SubtractionDimensions
| MultiplicationDimensions
| NotAnObject.

(** The error kinds of the specification. *)
Inductive error_kind := FormatError | DimensionMismatch | TypeError.

Definition kind (e : error) : error_kind :=
  match e with
  | NotEnoughLines | InvalidDimensionFormat | InvalidFormatAtLine _ _ =>
      FormatError
  | AdditionDimensions | SubtractionDimensions | MultiplicationDimensions =>
      DimensionMismatch
  | NotAnObject => TypeError
  end.

Inductive outcome (A : Type) :=
| Return (a : A)
| Throw (e : error).
Arguments Return {A} a.
Arguments Throw {A} e.

(** A key [`${row},${col}`], by the two numbers it is built from. *)
Abbreviation key := (Z * Z)%type.

Definition key_text (k : key) : jsstring :=
  show_Z (fst k) ++ COMMA :: show_Z (snd k).

Record SparseMatrix := {
  rows : Z;
  cols : Z;
  elements : list (key * Z)
}.

(** [key in obj ? obj[key] : undefined] *)
Fixpoint obj_get (k : key) (obj : list (key * Z)) : option Z :=
  match obj with
  | [] => None
  | (k', v) :: obj' => if decide (k = k') then Some v else obj_get k obj'
  end.

(** [obj[key] = value]: an existing property keeps its place in the
    enumeration order, a new one goes last. *)
Fixpoint obj_set (k : key) (v : Z) (obj : list (key * Z)) : list (key * Z) :=
  match obj with
  | [] => [(k, v)]
  | (k', v') :: obj' =>
      if decide (k = k') then (k, v) :: obj' else (k', v') :: obj_set k v obj'
  end.

Definition createSparseMatrix (numRows numCols : Z) : SparseMatrix :=
  {| rows := numRows; cols := numCols; elements := [] |}.

Definition getMatrixElement (matrix : SparseMatrix) (row col : Z) : Z :=
  match obj_get (row, col) (elements matrix) with
  | Some v => v
  | None => 0
  end.

(** The object after [setMatrixElement(matrix, row, col, value)]. *)
Definition setMatrixElement (matrix : SparseMatrix) (row col value : Z)
  : SparseMatrix :=
  {| rows := if rows matrix <=? row then row + 1 else rows matrix;
     cols := if cols matrix <=? col then col + 1 else cols matrix;
     elements := obj_set (row, col) value (elements matrix) |}.

(** The element loop of [loadMatrixFromFile], from index [i] on. *)
Fixpoint load_elements (i : nat) (lines : list jsstring)
    (sparseMatrix : SparseMatrix) : outcome SparseMatrix :=
  match lines with
  | [] => Return sparseMatrix
  | l :: lines' =>
      let line := trim l in
      match line with
      | [] => load_elements (S i) lines' sparseMatrix
      | _ =>
          match match_element line with
          | None => Throw (InvalidFormatAtLine (i + 1) line)
          | Some (r, c, v) =>
              load_elements (S i) lines'
                (setMatrixElement sparseMatrix
                   (parseInt r) (parseInt c) (parseInt v))
          end
      end
  end.

(** [loadMatrixFromFile], from the content of the file on. *)
Definition loadMatrixFromFile (fileContent : jsstring)
  : outcome SparseMatrix :=
  match split_on LF fileContent with
  | l0 :: l1 :: rest =>
      match match_dimension (str "rows=") (trim l0),
            match_dimension (str "cols=") (trim l1) with
      | Some totalRows, Some totalCols =>
          load_elements 2 rest
            (createSparseMatrix (parseInt totalRows) (parseInt totalCols))
      | _, _ => Throw InvalidDimensionFormat
      end
  | _ => Throw NotEnoughLines
  end.

Definition addMatrices (matrix1 matrix2 : SparseMatrix)
  : outcome SparseMatrix :=
  if negb (rows matrix1 =? rows matrix2) || negb (cols matrix1 =? cols matrix2)
  then Throw AdditionDimensions
  else
    let result := createSparseMatrix (rows matrix1) (cols matrix1) in
    let result :=
      fold_left (fun result '((row, col), value) =>
                   setMatrixElement result row col value)
                (elements matrix1) result in
    let result :=
      fold_left (fun result '((row, col), value) =>
                   let currentValue := getMatrixElement result row col in
                   setMatrixElement result row col (currentValue + value))
                (elements matrix2) result in
    Return result.

Definition subtractMatrices (matrix1 matrix2 : SparseMatrix)
  : outcome SparseMatrix :=
  if negb (rows matrix1 =? rows matrix2) || negb (cols matrix1 =? cols matrix2)
  then Throw SubtractionDimensions
  else
    let result := createSparseMatrix (rows matrix1) (cols matrix1) in
    let result :=
      fold_left (fun result '((row, col), value) =>
                   setMatrixElement result row col value)
                (elements matrix1) result in
    let result :=
      fold_left (fun result '((row, col), value) =>
                   let currentValue := getMatrixElement result row col in
                   setMatrixElement result row col (currentValue - value))
                (elements matrix2) result in
    Return result.

Definition multiplyMatrices (matrix1 matrix2 : SparseMatrix)
  : outcome SparseMatrix :=
  if negb (cols matrix1 =? rows matrix2) then Throw MultiplicationDimensions
  else
    let result := createSparseMatrix (rows matrix1) (cols matrix2) in
    let result :=
      fold_left (fun result '((row, col), value) =>
                   fold_left (fun result k =>
                     let otherValue := getMatrixElement matrix2 col k in
                     if negb (otherValue =? 0) then
                       let currentValue := getMatrixElement result row k in
                       setMatrixElement result row k
                         (currentValue + value * otherValue)
                     else result)
                   (seqZ 0 (cols matrix2)) result)
                (elements matrix1) result in
    Return result.

(** [multiplyMatrices] with the test [otherValue !== 0] taken out: not in
    the source, the variant that the remark on the skip compares with. *)
Definition multiplyMatrices_noskip (matrix1 matrix2 : SparseMatrix)
  : outcome SparseMatrix :=
  if negb (cols matrix1 =? rows matrix2) then Throw MultiplicationDimensions
  else
    let result := createSparseMatrix (rows matrix1) (cols matrix2) in
    let result :=
      fold_left (fun result '((row, col), value) =>
                   fold_left (fun result k =>
                     let otherValue := getMatrixElement matrix2 col k in
                     let currentValue := getMatrixElement result row k in
                     setMatrixElement result row k
                       (currentValue + value * otherValue))
                   (seqZ 0 (cols matrix2)) result)
                (elements matrix1) result in
    Return result.

(** One line of [matrixToString]; a missing component of the split key
    would print as [undefined]. *)
Definition element_line (k : key) (value : Z) : jsstring :=
  let parts := split_on COMMA (key_text k) in
  str "(" ++ nth 0 parts (str "undefined") ++ str ", "
  ++ nth 1 parts (str "undefined") ++ str ", " ++ show_Z value
  ++ str ")" ++ [LF].

Definition matrixToString (matrix : SparseMatrix) : jsstring :=
  trim (str "rows=" ++ show_Z (rows matrix) ++ [LF]
        ++ str "cols=" ++ show_Z (cols matrix) ++ [LF]
        ++ flat_map (fun '(k, value) => element_line k value)
             (elements matrix)).

End Matrix.

(** ** The operators on objects in a store

    The functions of [Matrix] pass the one object a function writes to from
    step to step. Here matrices are objects of a store and the operators take
    and return references, as in the source: two arguments may be the same
    object, and what an operator writes is visible through every reference
    to the object written. *)

Module Heap.
Import Text.
Export Matrix.
Local Open Scope Z_scope.

Abbreviation loc := nat.
Abbreviation heap := (gmap nat SparseMatrix).

(** A computation reads and writes the store and returns or throws. *)
Definition M (A : Type) : Type := heap -> outcome A * heap.

Definition ret {A} (a : A) : M A := fun h => (Return a, h).

Definition throw {A} (e : error) : M A := fun h => (Throw e, h).

Definition bind {A B} (m : M A) (k : A -> M B) : M B :=
  fun h => match m h with
           | (Return a, h') => k a h'
           | (Throw e, h') => (Throw e, h')
           end.

Notation "'do' x <- m ; k" := (bind m (fun x => k))
  (at level 10, x pattern, m at level 100, k at level 200).

(** Reading through a reference. A location outside the store denotes no
    object; property access on it throws, as it does on [undefined]. *)
Definition load (l : loc) : M SparseMatrix :=
  fun h => match h !! l with
           | Some m => (Return m, h)
           | None => (Throw NotAnObject, h)
           end.

Definition store (l : loc) (m : SparseMatrix) : M unit :=
  fun h => (Return tt, <[l := m]> h).

(** A new object gets a location that is not in use. *)
Definition alloc (m : SparseMatrix) : M loc :=
  fun h => let l := fresh (dom h) in (Return l, <[l := m]> h).

Fixpoint for_in {A} (l : list A) (body : A -> M unit) : M unit :=
  match l with
  | [] => ret tt
  | x :: l' => do _ <- body x; for_in l' body
  end.

Definition createSparseMatrix (numRows numCols : Z) : M loc :=
  alloc (Matrix.createSparseMatrix numRows numCols).

Definition getMatrixElement (matrix : loc) (row col : Z) : M Z :=
  do m <- load matrix;
  ret (Matrix.getMatrixElement m row col).

Definition setMatrixElement (matrix : loc) (row col value : Z) : M unit :=
  do m <- load matrix;
  store matrix (Matrix.setMatrixElement m row col value).

Definition addMatrices (matrix1 matrix2 : loc) : M loc :=
  do m1 <- load matrix1;
  do m2 <- load matrix2;
  if negb (rows m1 =? rows m2) || negb (cols m1 =? cols m2)
  then throw AdditionDimensions
  else
    do result <- createSparseMatrix (rows m1) (cols m1);
    do m1 <- load matrix1;
    do _ <- for_in (elements m1) (fun '((row, col), value) =>
              setMatrixElement result row col value);
    do m2 <- load matrix2;
    do _ <- for_in (elements m2) (fun '((row, col), value) =>
              do currentValue <- getMatrixElement result row col;
              setMatrixElement result row col (currentValue + value));
    ret result.

Definition subtractMatrices (matrix1 matrix2 : loc) : M loc :=
  do m1 <- load matrix1;
  do m2 <- load matrix2;
  if negb (rows m1 =? rows m2) || negb (cols m1 =? cols m2)
  then throw SubtractionDimensions
  else
    do result <- createSparseMatrix (rows m1) (cols m1);
    do m1 <- load matrix1;
    do _ <- for_in (elements m1) (fun '((row, col), value) =>
              setMatrixElement result row col value);
    do m2 <- load matrix2;
    do _ <- for_in (elements m2) (fun '((row, col), value) =>
              do currentValue <- getMatrixElement result row col;
              setMatrixElement result row col (currentValue - value));
    ret result.

Definition multiplyMatrices (matrix1 matrix2 : loc) : M loc :=
  do m1 <- load matrix1;
  do m2 <- load matrix2;
  if negb (cols m1 =? rows m2) then throw MultiplicationDimensions
  else
    do result <- createSparseMatrix (rows m1) (cols m2);
    do m1 <- load matrix1;
    do _ <- for_in (elements m1) (fun '((row, col), value) =>
              do m2 <- load matrix2;
              for_in (seqZ 0 (cols m2)) (fun k =>
                do otherValue <- getMatrixElement matrix2 col k;
                if negb (otherValue =? 0) then
                  do currentValue <- getMatrixElement result row k;
                  setMatrixElement result row k
                    (currentValue + value * otherValue)
                else ret tt));
    ret result.

End Heap.

(** ** What the specification talks about *)

Module Spec.
Import Text Matrix.
Local Open Scope Z_scope.

(** *** The loops of the operators, by name *)

(** [matrix1.rows !== matrix2.rows || matrix1.cols !== matrix2.cols] *)
Definition dimensions_differ (matrix1 matrix2 : SparseMatrix) : bool :=
  negb (rows matrix1 =? rows matrix2) || negb (cols matrix1 =? cols matrix2).

(** First loop of [addMatrices] and [subtractMatrices], and what the element
    loop of [loadMatrixFromFile] does with its triples. *)
Definition copy_elements (source : list (key * Z)) (result : SparseMatrix)
  : SparseMatrix :=
  fold_left (fun result '((row, col), value) =>
               setMatrixElement result row col value)
            source result.

(** Second loop of [addMatrices] and [subtractMatrices], [op] being [+] or
    [-]. *)
Definition accumulate_elements (op : Z -> Z -> Z) (source : list (key * Z))
    (result : SparseMatrix) : SparseMatrix :=
  fold_left (fun result '((row, col), value) =>
               let currentValue := getMatrixElement result row col in
               setMatrixElement result row col (op currentValue value))
            source result.

(** Inner loop of [multiplyMatrices] for one element of [matrix1]; [skip]
    tells whether the test [otherValue !== 0] is made. *)
Definition multiply_row (skip : bool) (matrix2 : SparseMatrix)
    (row col value : Z) (result : SparseMatrix) : SparseMatrix :=
  fold_left (fun result k =>
               let otherValue := getMatrixElement matrix2 col k in
               if skip && (otherValue =? 0) then result
               else
                 let currentValue := getMatrixElement result row k in
                 setMatrixElement result row k
                   (currentValue + value * otherValue))
            (seqZ 0 (cols matrix2)) result.

(** [multiplyMatrices] and [multiplyMatrices_noskip] at once. *)
Definition multiply_with (skip : bool) (matrix1 matrix2 : SparseMatrix)
  : outcome SparseMatrix :=
  if negb (cols matrix1 =? rows matrix2) then Throw MultiplicationDimensions
  else
    Return (fold_left (fun result '((row, col), value) =>
                         multiply_row skip matrix2 row col value result)
              (elements matrix1)
              (createSparseMatrix (rows matrix1) (cols matrix2))).

(** *** The forms of the lines *)

Definition digit (c : char) : Prop := is_digit c = true.
Definition blank (c : char) : Prop := is_space c = true.

(** [<non-negative integer>]: one decimal digit or more. *)
Definition numeral (ds : jsstring) : Prop := ds <> [] /\ Forall digit ds.

(** [<optionally-negative integer>] *)
Definition signed_numeral (v : jsstring) : Prop :=
  numeral v \/ exists ds, v = MINUS :: ds /\ numeral ds.

(** A line that is [name<non-negative integer>] and nothing else. *)
Definition dimension_form (name line : jsstring) : Prop :=
  exists ds, numeral ds /\ line = name ++ ds.

(** A line that is
    [(<non-negative integer>, <non-negative integer>, <optionally-negative integer>)]
    and nothing else, with any white space after each comma. *)
Definition element_form (line : jsstring) : Prop :=
  exists r c v ws1 ws2,
    numeral r /\ numeral c /\ signed_numeral v
    /\ Forall blank ws1 /\ Forall blank ws2
    /\ line = LPAREN :: r ++ COMMA :: ws1 ++ c ++ COMMA :: ws2 ++ v
               ++ [RPAREN].

(** A line that starts with a string of the given form. *)
Definition begins_with (form : jsstring -> Prop) (line : jsstring) : Prop :=
  exists p rest, form p /\ line = p ++ rest.

(** The four ways a text is rejected, for a given reading of "the line
    matches": to have fewer than two lines, a first line that is no [rows=]
    line, a second line that is no [cols=] line, or a later line that is
    neither blank nor an element line. *)
Definition malformed (dimension : jsstring -> jsstring -> Prop)
    (element : jsstring -> Prop) (text : jsstring) : Prop :=
  let lines := split_on LF text in
  (length lines < 2)%nat
  \/ ~ dimension (str "rows=") (trim (nth 0 lines []))
  \/ ~ dimension (str "cols=") (trim (nth 1 lines []))
  \/ exists (i : nat) line,
       (2 <= i)%nat /\ lines !! i = Some line
       /\ trim line <> [] /\ ~ element (trim line).

(** The whole line has to be of the form. *)
Definition malformed_whole_line : jsstring -> Prop :=
  malformed dimension_form element_form.

(** The line has to start with the form; what follows is not looked at. *)
Definition malformed_line_start : jsstring -> Prop :=
  malformed (fun name => begins_with (dimension_form name))
            (begins_with element_form).

Definition throws {A} (k : error_kind) (o : outcome A) : Prop :=
  exists e, o = Throw e /\ kind e = k.

Definition returns {A} (o : outcome A) : Prop := exists a, o = Return a.






(** The text of an element line and of a dimension line. *)
Definition element_text (r c v : Z) : jsstring :=
  str "(" ++ show_Z r ++ str ", " ++ show_Z c ++ str ", " ++ show_Z v
  ++ str ")".

Definition dimension_text (name : jsstring) (n : Z) : jsstring :=
  name ++ show_Z n.

(** The lines of the text of a matrix. *)
Definition matrix_lines (m : SparseMatrix) : list jsstring :=
  dimension_text (str "rows=") (rows m)
  :: dimension_text (str "cols=") (cols m)
  :: map (fun '((r, c), v) => element_text r c v) (elements m).

(** A string that [trim] leaves as it is. *)
Definition trimmed (s : jsstring) : Prop :=
  stops is_space s /\ stops is_space (rev s).





(** A property bag holds a key once. *)
Definition unique_keys (m : SparseMatrix) : Prop :=
  NoDup (elements m).*1.

(** Every stored coordinate lies within the declared extents. *)
Definition in_extents (m : SparseMatrix) : Prop :=
  forall r c v, ((r, c), v) ∈ elements m ->
    0 <= r < rows m /\ 0 <= c < cols m.

Definition valid (m : SparseMatrix) : Prop :=
  unique_keys m /\ in_extents m.

(** [valid], as a test. *)
Definition check_valid (m : SparseMatrix) : bool :=
  bool_decide (NoDup (elements m).*1)
  && forallb (fun '((r, c), _) =>
                (0 <=? r) && (r <? rows m) && (0 <=? c) && (c <? cols m))
       (elements m).

(** A text is rejected in the cases [bad] and in no other. *)
Definition rejects_exactly (bad : jsstring -> Prop) (text : jsstring) : Prop :=
  (throws FormatError (loadMatrixFromFile text) <-> bad text)
  /\ (returns (loadMatrixFromFile text) <-> ~ bad text).

(** [written P m m']: [m'] is [m] after a sequence of element writes at
    coordinates that satisfy [P]. *)
Inductive written (P : Z -> Z -> Prop) : SparseMatrix -> SparseMatrix -> Prop :=
| written_nil m : written P m m
| written_cons m m' r c v :
    P r c -> written P (setMatrixElement m r c v) m' -> written P m m'.

(** What a run of an operator on the objects [matrix1] and [matrix2] of the
    store [h] leaves as it was: every object of [h], the two operands among
    them, is the same after the run; a returned reference is to an object
    that did not exist before, so to neither operand; a run that throws
    leaves the store as it was. *)
Definition leaves_store (h : Heap.heap) (matrix1 matrix2 : Heap.loc)
    (run : outcome Heap.loc * Heap.heap) : Prop :=
  let '(out, h') := run in
  (forall l m, h !! l = Some m -> h' !! l = Some m)
  /\ match out with
     | Return result =>
         h !! result = None /\ result <> matrix1 /\ result <> matrix2
         /\ is_Some (h' !! result)
     | Throw e => kind e = DimensionMismatch /\ h' = h
     end.


End Spec.

(** ** Sample matrices and texts *)

Module Samples.
Import Text Matrix.
Local Open Scope Z_scope.

Definition A : SparseMatrix :=
  {| rows := 2; cols := 3;
     elements := [((0, 0), 2); ((0, 2), -1); ((1, 1), 4)] |}.

Definition A' : SparseMatrix :=
  {| rows := 2; cols := 3; elements := [((1, 1), -4); ((0, 1), 6)] |}.

(** With a stored zero. *)
Definition B : SparseMatrix :=
  {| rows := 3; cols := 2;
     elements := [((0, 0), 5); ((1, 1), 0); ((2, 0), 7)] |}.

Definition C : SparseMatrix :=
  {| rows := 2; cols := 2; elements := [((0, 1), 3); ((1, 0), 1)] |}.

Definition store : Heap.heap := <[0%nat := A]> (<[1%nat := A']> ∅).

(** A first line with text after the number. *)
Definition text_fraction : jsstring :=
  join LF [str "rows=2.5"; str "cols=3"].


End Samples.

(** ** Further notions for the properties beyond the claims *)

Module More.
Import Text Matrix Spec.
Local Open Scope Z_scope.

(** A line the element loop passes: blank, or starting with an element
    triple. *)
Definition passes (line : jsstring) : Prop :=
  trim line = [] \/ begins_with element_form (trim line).

Definition CR : char := 13%N.

(** A text with a carriage return put before every line feed. *)
Definition crlf (text : jsstring) : jsstring :=
  flat_map (fun c => if (c =? LF)%N then [CR; LF] else [c]) text.

End More.

(** ** The program around the matrices

    [loadMatrixFromFile] with its read, [saveMatrixToFile] and
    [performMatrixOperations], as programs that ask questions on the
    terminal, write to the console and read and write files. What the user
    types and what the file system answers is not the program's: a program
    is a tree of such requests, and its runs are the paths of that tree
    ([runs]), one for each way the environment can answer. The matrices are
    the values of [Matrix]; [Heap] shows that the operators on objects
    compute the same. *)

Module Program.
Import Text Matrix.
Local Open Scope Z_scope.

(** An error thrown by [fs]: whether its [code] is ['ENOENT'], and its
    message. *)
Record fs_error := { enoent : bool; fs_message : jsstring }.

(** What the program throws and catches. *)
Inductive failure :=
| FsError (e : fs_error)
| FileNotFound (matrixFilePath : jsstring)
| FormatFailure (matrixFilePath : jsstring) (e : error)
| OperationFailure (e : error)
| InvalidOption
| NotAFunction.

(** The messages of the errors of [Matrix], in a call with the given file
    path. *)
Definition error_text (matrixFilePath : jsstring) (e : error) : jsstring :=
  match e with
  | NotEnoughLines =>
      str "File " ++ matrixFilePath
      ++ str " does not contain enough lines for matrix dimensions"
  | InvalidDimensionFormat =>
      str "Invalid dimension format in file " ++ matrixFilePath
      ++ str ". Expected 'rows=X' and 'cols=Y'"
  | InvalidFormatAtLine n line =>
      str "Invalid format at line " ++ show_Z (Z.of_nat n)
      ++ str " in file " ++ matrixFilePath ++ str ": " ++ line
  | AdditionDimensions =>
      str "Matrices must have the same dimensions for addition."
  | SubtractionDimensions =>
      str "Matrices must have the same dimensions for subtraction."
  | MultiplicationDimensions =>
      str "Number of columns of first matrix must equal number of rows of second matrix."
  | NotAnObject => str "Cannot read properties of undefined"
  end.

(** [error.message] *)
Definition message (f : failure) : jsstring :=
  match f with
  | FsError e => fs_message e
  | FileNotFound matrixFilePath => str "File not found: " ++ matrixFilePath
  | FormatFailure matrixFilePath e => error_text matrixFilePath e
  | OperationFailure e => error_text [] e
  | InvalidOption => str "Invalid option."
  | NotAFunction => str "operation.method is not a function"
  end.

(** A program: it ends with a value, or makes a request and goes on with
    the answer. *)
Inductive io (A : Type) : Type :=
| Pure (a : A)
| Question (query : jsstring) (k : jsstring -> io A)
| ConsoleLog (text : jsstring) (k : io A)
| ReadFile (path : jsstring) (k : jsstring + fs_error -> io A)
| WriteFile (path content : jsstring) (k : option fs_error -> io A)
| CloseInterface (k : io A).
Arguments Pure {A} a.
Arguments Question {A} query k.
Arguments ConsoleLog {A} text k.
Arguments ReadFile {A} path k.
Arguments WriteFile {A} path content k.
Arguments CloseInterface {A} k.

Fixpoint bind {A B} (m : io A) (k : A -> io B) : io B :=
  match m with
  | Pure a => k a
  | Question query k' => Question query (fun answer => bind (k' answer) k)
  | ConsoleLog text k' => ConsoleLog text (bind k' k)
  | ReadFile path k' => ReadFile path (fun r => bind (k' r) k)
  | WriteFile path content k' =>
      WriteFile path content (fun r => bind (k' r) k)
  | CloseInterface k' => CloseInterface (bind k' k)
  end.

(** Sequencing inside [try]: a failure skips what follows. *)
Definition bind_ok {A B} (m : io (failure + A)) (k : A -> io (failure + B))
  : io (failure + B) :=
  bind m (fun r => match r with
                   | inl f => Pure (inl f)
                   | inr a => k a
                   end).

Notation "'do' x <- m ; k" := (bind m (fun x => k))
  (at level 10, x pattern, m at level 100, k at level 200).
Notation "'do?' x <- m ; k" := (bind_ok m (fun x => k))
  (at level 10, x pattern, m at level 100, k at level 200).

(** [await askQuestion(query)] *)
Definition askQuestion {F} (query : jsstring) : io (F + jsstring) :=
  Question query (fun answer => Pure (inr answer)).

(** [console.log(text)] *)
Definition log {F} (text : jsstring) : io (F + unit) :=
  ConsoleLog text (Pure (inr tt)).

Definition throw {A} (f : failure) : io (failure + A) := Pure (inl f).

(** [fs.readFileSync(path, "utf-8")] *)
Definition readFileSync (path : jsstring) : io (failure + jsstring) :=
  ReadFile path (fun r => match r with
                          | inl fileContent => Pure (inr fileContent)
                          | inr e => Pure (inl (FsError e))
                          end).

(** [fs.writeFileSync(path, content)] *)
Definition writeFileSync (path content : jsstring) : io (failure + unit) :=
  WriteFile path content (fun r => match r with
                                   | None => Pure (inr tt)
                                   | Some e => Pure (inl (FsError e))
                                   end).

(** [loadMatrixFromFile(matrixFilePath)]: the read, the parsing of
    [Matrix.loadMatrixFromFile], and the [catch] that turns a missing file
    into [File not found] and passes every other error on. *)
Definition loadMatrixFromFile (matrixFilePath : jsstring)
  : io (failure + SparseMatrix) :=
  do r <- (do? fileContent <- readFileSync matrixFilePath;
           match Matrix.loadMatrixFromFile fileContent with
           | Return sparseMatrix => Pure (inr sparseMatrix)
           | Throw e => throw (FormatFailure matrixFilePath e)
           end);
  match r with
  | inl (FsError e) =>
      if enoent e then throw (FileNotFound matrixFilePath)
      else throw (FsError e)
  | inl error => throw error
  | inr sparseMatrix => Pure (inr sparseMatrix)
  end.

Definition saveMatrixToFile (matrix : SparseMatrix) (filePath : jsstring)
  : io (failure + unit) :=
  let content := matrixToString matrix in
  writeFileSync filePath content.

Record operation := {
  name : jsstring;
  method : SparseMatrix -> SparseMatrix -> outcome SparseMatrix
}.

(** The object literal [matrixOperations], its own properties in order. *)
Definition matrixOperations : list (jsstring * operation) :=
  [(str "a", {| name := str "addition"; method := addMatrices |});
   (str "b", {| name := str "subtraction"; method := subtractMatrices |});
   (str "c", {| name := str "multiplication"; method := multiplyMatrices |})].

(** What [matrixOperations[operationChoice]] is: one of the three
    operations, a property that the object inherits from its prototype (a
    function or an object, none with a [method]), or [undefined]. *)
Inductive property :=
| Own (op : operation)
| Inherited
| Undefined.

Fixpoint own_property (key : jsstring) (obj : list (jsstring * operation))
  : option operation :=
  match obj with
  | [] => None
  | (key', op) :: obj' =>
      if decide (key = key') then Some op else own_property key obj'
  end.

(** [inherited] tells the property names of the prototype. *)
Definition get_property (inherited : jsstring -> bool) (key : jsstring)
  : property :=
  match own_property key matrixOperations with
  | Some op => Own op
  | None => if inherited key then Inherited else Undefined
  end.

(** The property names of [Object.prototype]. *)
Definition object_prototype : list jsstring :=
  [str "constructor"; str "__defineGetter__"; str "__defineSetter__";
   str "hasOwnProperty"; str "__lookupGetter__"; str "__lookupSetter__";
   str "isPrototypeOf"; str "propertyIsEnumerable"; str "toString";
   str "valueOf"; str "__proto__"; str "toLocaleString"].

Definition in_object_prototype (key : jsstring) : bool :=
  bool_decide (key ∈ object_prototype).

(** The [for ... in] over [matrixOperations] that prints the menu. *)
Fixpoint log_menu (obj : list (jsstring * operation)) : io (failure + unit) :=
  match obj with
  | [] => Pure (inr tt)
  | (key, operation) :: obj' =>
      do? _ <- log (key ++ str ": " ++ name operation);
      log_menu obj'
  end.

(** The body of the [try] block. *)
Definition interaction (inherited : jsstring -> bool) : io (failure + unit) :=
  do? _ <- log (str "Menu :");
  do? _ <- log_menu matrixOperations;
  do? matrixFilePath1 <-
    askQuestion (str "Enter the file path for the first matrix: ");
  do? matrix1 <- loadMatrixFromFile matrixFilePath1;
  do? matrixFilePath2 <-
    askQuestion (str "Enter the file path for the second matrix: ");
  do? matrix2 <- loadMatrixFromFile matrixFilePath2;
  do? operationChoice <- askQuestion (str "Choose an option (a, b, or c): ");
  match get_property inherited operationChoice with
  | Undefined => throw InvalidOption
  | Inherited => throw NotAFunction
  | Own operation =>
      match method operation matrix1 matrix2 with
      | Throw e => throw (OperationFailure e)
      | Return resultMatrix =>
          do? _ <- log (str "Output of " ++ name operation
                        ++ str "........" ++ [LF]);
          do? outputFilePath <-
            askQuestion (str "Enter the file path to save the result: ");
          saveMatrixToFile resultMatrix outputFilePath
      end
  end.

(** [performMatrixOperations]: the [try] block, the [catch] that prints the
    message and the [finally] that closes the interface. *)
Definition performMatrixOperations (inherited : jsstring -> bool) : io unit :=
  do r <- interaction inherited;
  do _ <- match r with
          | inl error => ConsoleLog (str "Error: " ++ message error) (Pure tt)
          | inr _ => Pure tt
          end;
  CloseInterface (Pure tt).

(** *** Runs *)

(** What is seen of a run: the requests with their answers. *)
Inductive step :=
| Asked (query answer : jsstring)
| Logged (text : jsstring)
| Read (path : jsstring) (r : jsstring + fs_error)
| Wrote (path content : jsstring) (r : option fs_error)
| Closed.

(** [runs p trace a]: the program [p] can make the requests of [trace],
    get the answers of [trace] and end with [a]. *)
Fixpoint runs {A} (p : io A) (trace : list step) (a : A) : Prop :=
  match p with
  | Pure x => trace = [] /\ a = x
  | Question query k =>
      exists answer rest,
        trace = Asked query answer :: rest /\ runs (k answer) rest a
  | ConsoleLog text k =>
      exists rest, trace = Logged text :: rest /\ runs k rest a
  | ReadFile path k =>
      exists r rest, trace = Read path r :: rest /\ runs (k r) rest a
  | WriteFile path content k =>
      exists r rest,
        trace = Wrote path content r :: rest /\ runs (k r) rest a
  | CloseInterface k => exists rest, trace = Closed :: rest /\ runs k rest a
  end.

(** A terminal whose user types the lines of [answers], and plain files:
    reading a name that has no file fails with [ENOENT], writing always
    goes through. *)
Record world := {
  answers : list jsstring;
  files : gmap jsstring jsstring
}.

Definition no_entry (path : jsstring) : fs_error :=
  {| enoent := true;
     fs_message := str "ENOENT: no such file or directory, open '" ++ path
                   ++ str "'" |}.

(** The run of a program in a world, as long as the user answers: the
    trace, the world after the run and the value. *)
Fixpoint exec {A} (p : io A) (w : world) : option (list step * world * A) :=
  match p with
  | Pure a => Some ([], w, a)
  | Question query k =>
      match answers w with
      | [] => None
      | answer :: rest =>
          match exec (k answer) {| answers := rest; files := files w |} with
          | Some (trace, w', a) => Some (Asked query answer :: trace, w', a)
          | None => None
          end
      end
  | ConsoleLog text k =>
      match exec k w with
      | Some (trace, w', a) => Some (Logged text :: trace, w', a)
      | None => None
      end
  | ReadFile path k =>
      let r := match files w !! path with
               | Some content => inl content
               | None => inr (no_entry path)
               end in
      match exec (k r) w with
      | Some (trace, w', a) => Some (Read path r :: trace, w', a)
      | None => None
      end
  | WriteFile path content k =>
      match exec (k None)
              {| answers := answers w;
                 files := <[path := content]> (files w) |} with
      | Some (trace, w', a) => Some (Wrote path content None :: trace, w', a)
      | None => None
      end
  | CloseInterface k =>
      match exec k w with
      | Some (trace, w', a) => Some (Closed :: trace, w', a)
      | None => None
      end
  end.

(** *** What is seen of the program *)

Definition question1 : jsstring :=
  str "Enter the file path for the first matrix: ".
Definition question2 : jsstring :=
  str "Enter the file path for the second matrix: ".
Definition question3 : jsstring := str "Choose an option (a, b, or c): ".
Definition question4 : jsstring :=
  str "Enter the file path to save the result: ".

(** The four lines of the menu. *)
Definition menu : list step :=
  [Logged (str "Menu :"); Logged (str "a: addition");
   Logged (str "b: subtraction"); Logged (str "c: multiplication")].

(** What [loadMatrixFromFile] makes of what the file system gives. *)
Definition loaded (matrixFilePath : jsstring) (r : jsstring + fs_error)
  : failure + SparseMatrix :=
  match r with
  | inl fileContent =>
      match Matrix.loadMatrixFromFile fileContent with
      | Return sparseMatrix => inr sparseMatrix
      | Throw e => inl (FormatFailure matrixFilePath e)
      end
  | inr e => inl (if enoent e then FileNotFound matrixFilePath else FsError e)
  end.

(** What the choice of the user gives on two matrices: the operation and
    its result, or a failure. *)
Definition chosen (inherited : jsstring -> bool) (operationChoice : jsstring)
    (matrix1 matrix2 : SparseMatrix) : failure + operation * SparseMatrix :=
  match get_property inherited operationChoice with
  | Undefined => inl InvalidOption
  | Inherited => inl NotAFunction
  | Own operation =>
      match method operation matrix1 matrix2 with
      | Throw e => inl (OperationFailure e)
      | Return resultMatrix => inr (operation, resultMatrix)
      end
  end.

(** How a run ends: with the message of the error, if any, and the closing
    of the interface. *)
Definition ending (r : failure + unit) : list step :=
  match r with
  | inl f => [Logged (str "Error: " ++ message f); Closed]
  | inr _ => [Closed]
  end.

(** The four ways through the [try] block: the first file fails, the second
    file fails, the choice or the operation fails, or the result is handed
    to the file system. *)
Inductive attempt (inherited : jsstring -> bool)
  : list step -> failure + unit -> Prop :=
| attempt_first path1 r1 f :
    loaded path1 r1 = inl f ->
    attempt inherited (menu ++ [Asked question1 path1; Read path1 r1]) (inl f)
| attempt_second path1 r1 matrix1 path2 r2 f :
    loaded path1 r1 = inr matrix1 -> loaded path2 r2 = inl f ->
    attempt inherited
      (menu ++ [Asked question1 path1; Read path1 r1;
                Asked question2 path2; Read path2 r2]) (inl f)
| attempt_choice path1 r1 matrix1 path2 r2 matrix2 choice f :
    loaded path1 r1 = inr matrix1 -> loaded path2 r2 = inr matrix2 ->
    chosen inherited choice matrix1 matrix2 = inl f ->
    attempt inherited
      (menu ++ [Asked question1 path1; Read path1 r1;
                Asked question2 path2; Read path2 r2;
                Asked question3 choice]) (inl f)
| attempt_write path1 r1 matrix1 path2 r2 matrix2 choice operation
    resultMatrix outputFilePath w :
    loaded path1 r1 = inr matrix1 -> loaded path2 r2 = inr matrix2 ->
    chosen inherited choice matrix1 matrix2 = inr (operation, resultMatrix) ->
    attempt inherited
      (menu ++ [Asked question1 path1; Read path1 r1;
                Asked question2 path2; Read path2 r2;
                Asked question3 choice;
                Logged (str "Output of " ++ name operation ++ str "........"
                        ++ [LF]);
                Asked question4 outputFilePath;
                Wrote outputFilePath (matrixToString resultMatrix) w])
      (match w with None => inr tt | Some e => inl (FsError e) end).

(** The runs of the whole program. *)
Definition session (inherited : jsstring -> bool) (trace : list step) : Prop :=
  exists tried r, attempt inherited tried r /\ trace = tried ++ ending r.



(** *** A sample world *)



(** A run that ends on the name of an inherited property. *)
Definition sample_trace_inherited : list step :=
  menu
  ++ [Asked question1 (str "m1.txt");
      Read (str "m1.txt") (inl (matrixToString Samples.A));
      Asked question2 (str "m2.txt");
      Read (str "m2.txt") (inl (matrixToString Samples.B));
      Asked question3 (str "toString");
      Logged (str "Error: operation.method is not a function");
      Closed].


End Program.


Import Text Matrix Spec.

(** ** The model at work *)

Section Runs.
Local Open Scope Z_scope.

Example load_two_elements :
  loadMatrixFromFile
    (join LF [str "rows=2"; str "cols=2"; str "(0,0,5)"; str "(1,1,3)"])
  = Return {| rows := 2; cols := 2;
              elements := [((0, 0), 5); ((1, 1), 3)] |}.
Proof. reflexivity. Qed.

Example load_one_line :
  loadMatrixFromFile (str "rows=2") = Throw NotEnoughLines.
Proof. reflexivity. Qed.

Example load_misspelt_header :
  loadMatrixFromFile (join LF [str "coluns=2"; str "cols=2"])
  = Throw InvalidDimensionFormat.
Proof. reflexivity. Qed.

(** No white space is allowed before the first number; the line number in
    the message counts from 1. *)
Example load_bad_element :
  loadMatrixFromFile
    (join LF [str "rows=2"; str "cols=2"; str "(0,0,5)"; str "( 1,1,3)"])
  = Throw (InvalidFormatAtLine 4 (str "( 1,1,3)")).
Proof. reflexivity. Qed.

(** Carriage returns, tabs and spaces around a line are trimmed. *)
Example load_trims_lines :
  loadMatrixFromFile
    (join LF [str "rows=1" ++ [13]; 32 :: str "cols=1" ++ [13];
              9 :: str "(0,   0,-5)" ++ [32; 13]; [13]])%N
  = Return {| rows := 1; cols := 1; elements := [((0, 0), -5)] |}.
Proof. reflexivity. Qed.

Example add_samples :
  addMatrices Samples.A Samples.A'
  = Return {| rows := 2; cols := 3;
              elements := [((0, 0), 2); ((0, 2), -1); ((1, 1), 0);
                           ((0, 1), 6)] |}.
Proof. reflexivity. Qed.

Example add_mismatch :
  addMatrices (createSparseMatrix 2 2) (createSparseMatrix 2 3)
  = Throw AdditionDimensions.
Proof. reflexivity. Qed.

Example multiply_samples :
  multiplyMatrices Samples.A Samples.B
  = Return {| rows := 2; cols := 2; elements := [((0, 0), 3)] |}.
Proof. reflexivity. Qed.

(** Without the test for zero the product also stores the zero terms. *)
Example multiply_noskip_samples :
  multiplyMatrices_noskip Samples.A Samples.B
  = Return {| rows := 2; cols := 2;
              elements := [((0, 0), 3); ((0, 1), 0); ((1, 0), 0);
                           ((1, 1), 0)] |}.
Proof. reflexivity. Qed.

Example multiply_mismatch :
  multiplyMatrices Samples.A Samples.C = Throw MultiplicationDimensions.
Proof. reflexivity. Qed.

Example text_of_sample :
  matrixToString Samples.B
  = join LF [str "rows=3"; str "cols=2"; str "(0, 0, 5)"; str "(1, 1, 0)";
             str "(2, 0, 7)"].
Proof. reflexivity. Qed.

Example text_of_empty :
  matrixToString (createSparseMatrix 4 0) = join LF [str "rows=4"; str "cols=0"].
Proof. reflexivity. Qed.

(** The operator on the store returns a new reference and writes nowhere
    else. *)
Example add_in_store :
  Heap.addMatrices 0%nat 1%nat Samples.store
  = (Return 2%nat,
     <[2%nat := {| rows := 2; cols := 3;
                   elements := [((0, 0), 2); ((0, 2), -1); ((1, 1), 0);
                                ((0, 1), 6)] |}]> Samples.store).
Proof. vm_compute. reflexivity. Qed.

End Runs.

(** ** Facts on strings *)

Ltac decide_chars :=
  repeat match goal with
         | |- context [N.leb ?a ?b] => destruct (N.leb_spec a b); try lia
         | |- context [N.eqb ?a ?b] => destruct (N.eqb_spec a b); try lia
         end;
  simpl; try reflexivity; try lia.

Section TextFacts.
Local Open Scope N_scope.

Lemma take_drop_while p s : take_while p s ++ drop_while p s = s.
Proof.
  induction s as [|c s IH]; simpl; [reflexivity|].
  destruct (p c); simpl; [now rewrite IH | reflexivity].
Qed.

Lemma take_while_Forall p s : Forall (fun c => p c = true) (take_while p s).
Proof.
  induction s as [|c s IH]; simpl; [constructor|].
  destruct (p c) eqn:E; constructor; assumption.
Qed.

Lemma drop_while_stops p s : stops p (drop_while p s).
Proof.
  induction s as [|c s IH]; simpl; [exact I|].
  destruct (p c) eqn:E; [exact IH | exact E].
Qed.

Lemma take_while_app p ds rest :
  Forall (fun c => p c = true) ds -> stops p rest ->
  take_while p (ds ++ rest) = ds.
Proof.
  intros Hds Hrest. induction Hds as [|c ds Hc _ IH]; simpl.
  - destruct rest as [|x rest]; simpl in *; [reflexivity | now rewrite Hrest].
  - now rewrite Hc, IH.
Qed.

Lemma drop_while_app p ds rest :
  Forall (fun c => p c = true) ds -> stops p rest ->
  drop_while p (ds ++ rest) = rest.
Proof.
  intros Hds Hrest. induction Hds as [|c ds Hc _ IH]; simpl.
  - destruct rest as [|x rest]; simpl in *; [reflexivity | now rewrite Hrest].
  - now rewrite Hc.
Qed.

Lemma drop_while_id p s : stops p s -> drop_while p s = s.
Proof. destruct s as [|c s]; simpl; [reflexivity | now intros ->]. Qed.

Lemma is_digit_bounds c : is_digit c = true <-> 48 <= c <= 57.
Proof.
  unfold is_digit. rewrite andb_true_iff, !N.leb_le. reflexivity.
Qed.

Lemma digit_not_space c : is_digit c = true -> is_space c = false.
Proof.
  intros H%is_digit_bounds. unfold is_space. decide_chars.
Qed.

Lemma digit_not_char c x :
  is_digit c = true -> x < 48 -> (c =? x) = false.
Proof. intros H%is_digit_bounds Hx. decide_chars. Qed.

Lemma numeral_cons ds :
  numeral ds -> exists c ds', ds = c :: ds' /\ is_digit c = true.
Proof.
  intros [Hne Hds]. destruct ds as [|c ds']; [congruence|].
  inversion Hds; subst. eauto.
Qed.

(** *** Decimal notation *)

Lemma digits_value_acc u acc :
  fold_left (fun a c => 10 * a + digit_of c) (uint_chars u) (Npos acc)
  = Npos (Pos.of_uint_acc u acc).
Proof.
  revert acc. induction u; intros acc; simpl; try reflexivity;
    rewrite <- IHu; f_equal; unfold digit_of; lia.
Qed.

Lemma digits_value_uint u : digits_value (uint_chars u) = N.of_uint u.
Proof.
  unfold digits_value, N.of_uint.
  induction u; simpl; try reflexivity; try exact IHu;
    apply (digits_value_acc u).
Qed.

Lemma digits_value_show n : digits_value (show_N n) = n.
Proof.
  unfold show_N. rewrite digits_value_uint. apply DecimalN.Unsigned.of_to.
Qed.

Lemma uint_chars_digits u : Forall digit (uint_chars u).
Proof.
  induction u; simpl; constructor; try assumption; reflexivity.
Qed.

Lemma show_N_numeral n : numeral (show_N n).
Proof.
  split; [|apply uint_chars_digits].
  unfold show_N. destruct n as [|p]; [discriminate|].
  simpl. pose proof (DecimalPos.Unsigned.to_uint_nonnil p) as Hnil.
  destruct (Pos.to_uint p); [congruence | discriminate ..].
Qed.

Lemma show_Z_signed z : signed_numeral (show_Z z).
Proof.
  destruct z; simpl; [left | left | right; eexists; split; [reflexivity|]];
    apply show_N_numeral.
Qed.

Lemma show_Z_nonneg z : (0 <= z)%Z -> numeral (show_Z z).
Proof.
  intros Hz. destruct z; try lia; apply show_N_numeral.
Qed.

Lemma parseInt_numeral ds : numeral ds -> parseInt ds = Z.of_N (digits_value ds).
Proof.
  intros (c & ds' & -> & Hc)%numeral_cons. unfold parseInt, MINUS.
  now rewrite (digit_not_char c 45 Hc).
Qed.

Lemma parseInt_show_Z z : parseInt (show_Z z) = z.
Proof.
  destruct z as [|p|p].
  - reflexivity.
  - change (show_Z (Z.pos p)) with (show_N (N.pos p)).
    rewrite parseInt_numeral by apply show_N_numeral.
    now rewrite digits_value_show.
  - simpl. now rewrite digits_value_show.
Qed.

End TextFacts.

(** ** The matchers against the forms of the lines *)

Section Matchers.
Local Open Scope N_scope.

Lemma expect_Some c s s' : expect c s = Some s' <-> s = c :: s'.
Proof.
  unfold expect. destruct s as [|x s0]; [split; discriminate|].
  destruct (N.eqb_spec x c) as [->|Hne]; split; intros H;
    inversion H; subst; congruence.
Qed.

Lemma expect_cons c s : expect c (c :: s) = Some s.
Proof. now apply expect_Some. Qed.

Lemma strip_prefix_Some p s s' : strip_prefix p s = Some s' <-> s = p ++ s'.
Proof.
  revert s. induction p as [|c p IH]; intros s; simpl.
  - split; congruence.
  - destruct (expect c s) as [s0|] eqn:E.
    + apply expect_Some in E as ->. rewrite IH. split; congruence.
    + split; [discriminate|]. intros ->. now rewrite expect_cons in E.
Qed.

Lemma strip_prefix_app p s : strip_prefix p (p ++ s) = Some s.
Proof. now apply strip_prefix_Some. Qed.

Lemma digits1_Some s ds rest :
  digits1 s = Some (ds, rest) <->
  numeral ds /\ s = ds ++ rest /\ stops is_digit rest.
Proof.
  unfold digits1. split.
  - intros H.
    assert (ds = take_while is_digit s /\ rest = drop_while is_digit s)
      as [-> ->] by (destruct (take_while is_digit s); inversion H; auto).
    repeat split.
    + destruct (take_while is_digit s); [discriminate | congruence].
    + apply take_while_Forall.
    + symmetry. apply take_drop_while.
    + apply drop_while_stops.
  - intros ([Hne Hds] & -> & Hstop).
    rewrite take_while_app, drop_while_app by assumption.
    destruct ds; congruence.
Qed.

(** A numeral at the start of a string is found, whatever follows. *)
Lemma digits1_numeral ds rest :
  numeral ds -> is_Some (digits1 (ds ++ rest)).
Proof.
  intros (c & ds' & -> & Hc)%numeral_cons. unfold digits1. simpl.
  rewrite Hc. eauto.
Qed.

Lemma match_dimension_Some name line ds :
  match_dimension name line = Some ds <->
  exists rest, numeral ds /\ line = name ++ ds ++ rest /\ stops is_digit rest.
Proof.
  unfold match_dimension. split.
  - destruct (strip_prefix name line) as [s|] eqn:Hp; [|discriminate].
    apply strip_prefix_Some in Hp as ->.
    destruct (digits1 s) as [[ds' rest]|] eqn:Hd; [|discriminate].
    intros [= <-]. apply digits1_Some in Hd as (Hn & -> & Hstop). eauto.
  - intros (rest & Hn & -> & Hstop). rewrite strip_prefix_app.
    now rewrite (proj2 (digits1_Some _ ds rest)).
Qed.

Lemma match_dimension_begins name line :
  is_Some (match_dimension name line) <->
  begins_with (dimension_form name) line.
Proof.
  split.
  - intros [ds (rest & Hn & -> & _)%match_dimension_Some].
    exists (name ++ ds), rest. split; [exists ds; auto|].
    now rewrite <- app_assoc.
  - intros (p & rest & (ds & Hn & ->) & ->). unfold match_dimension.
    rewrite <- app_assoc, strip_prefix_app.
    destruct (digits1_numeral ds rest Hn) as [[ds' rest'] ->]. eauto.
Qed.

Lemma numeral_stops_space ds rest : numeral ds -> stops is_space (ds ++ rest).
Proof.
  intros (c & ds' & -> & Hc)%numeral_cons. simpl. now apply digit_not_space.
Qed.

Lemma signed_stops_space v rest :
  signed_numeral v -> stops is_space (v ++ rest).
Proof.
  intros [Hn | (ds & -> & _)]; [now apply numeral_stops_space|].
  reflexivity.
Qed.

Lemma signed_digits1_Some s v rest :
  signed_digits1 s = Some (v, rest) <->
  signed_numeral v /\ s = v ++ rest /\ stops is_digit rest.
Proof.
  unfold signed_digits1. split.
  - destruct (expect MINUS s) as [s'|] eqn:E.
    + apply expect_Some in E as ->.
      destruct (digits1 s') as [[ds r]|] eqn:Hd; [|discriminate].
      intros [= <- <-]. apply digits1_Some in Hd as (Hn & -> & Hstop).
      repeat split; [right; eauto | assumption].
    + intros (Hn & -> & Hstop)%digits1_Some. repeat split; [now left | assumption].
  - intros ([Hn | (ds & -> & Hn)] & -> & Hstop).
    + destruct (numeral_cons _ Hn) as (c & ds' & -> & Hc). simpl.
      unfold MINUS. rewrite (digit_not_char c 45 Hc) by lia.
      now apply (digits1_Some ((c :: ds') ++ rest)).
    + change ((MINUS :: ds) ++ rest) with (MINUS :: ds ++ rest).
      rewrite expect_cons.
      now rewrite (proj2 (digits1_Some (ds ++ rest) ds rest)).
Qed.

Lemma match_element_Some line r c v :
  match_element line = Some (r, c, v) <->
  exists ws1 ws2 rest,
    numeral r /\ numeral c /\ signed_numeral v
    /\ Forall blank ws1 /\ Forall blank ws2
    /\ line = LPAREN :: r ++ COMMA :: ws1 ++ c ++ COMMA :: ws2 ++ v
               ++ RPAREN :: rest.
Proof.
  unfold match_element. split.
  - destruct (expect LPAREN line) as [s1|] eqn:E1; [|discriminate]. simpl.
    apply expect_Some in E1 as ->.
    destruct (digits1 s1) as [[r' s2]|] eqn:E2; [|discriminate]. simpl.
    apply digits1_Some in E2 as (Hr & -> & _).
    destruct (expect COMMA s2) as [s3|] eqn:E3; [|discriminate]. simpl.
    apply expect_Some in E3 as ->.
    destruct (digits1 (drop_while is_space s3)) as [[c' s4]|] eqn:E4;
      [|discriminate]. simpl.
    apply digits1_Some in E4 as (Hc & E4 & _).
    destruct (expect COMMA s4) as [s5|] eqn:E5; [|discriminate]. simpl.
    apply expect_Some in E5 as ->.
    destruct (signed_digits1 (drop_while is_space s5)) as [[v' s6]|] eqn:E6;
      [|discriminate]. simpl.
    apply signed_digits1_Some in E6 as (Hv & E6 & _).
    destruct (expect RPAREN s6) as [s7|] eqn:E7; [|discriminate]. simpl.
    apply expect_Some in E7 as ->.
    intros [= <- <- <-].
    exists (take_while is_space s3), (take_while is_space s5), s7.
    split; [assumption|]. split; [assumption|]. split; [assumption|].
    split; [apply take_while_Forall|]. split; [apply take_while_Forall|].
    rewrite <- E6, take_drop_while, <- E4, take_drop_while. reflexivity.
  - intros (ws1 & ws2 & rest & Hr & Hc & Hv & Hw1 & Hw2 & ->).
    rewrite ?expect_cons; simpl.
    rewrite (proj2 (digits1_Some _ r (COMMA :: ws1 ++ c ++ COMMA :: ws2 ++ v
                                        ++ RPAREN :: rest)))
      by (split; [assumption | split; reflexivity]). simpl.
    rewrite ?expect_cons; simpl.
    rewrite drop_while_app by (auto using numeral_stops_space).
    rewrite (proj2 (digits1_Some _ c (COMMA :: ws2 ++ v ++ RPAREN :: rest)))
      by (split; [assumption | split; reflexivity]). simpl.
    rewrite ?expect_cons; simpl.
    rewrite drop_while_app by (auto using signed_stops_space).
    rewrite (proj2 (signed_digits1_Some _ v (RPAREN :: rest)))
      by (split; [assumption | split; reflexivity]). simpl.
    rewrite ?expect_cons; reflexivity.
Qed.

Lemma match_element_begins line :
  is_Some (match_element line) <-> begins_with element_form line.
Proof.
  split.
  - intros [[[r c] v] (ws1 & ws2 & rest & Hr & Hc & Hv & Hw1 & Hw2 & ->)%match_element_Some].
    exists (LPAREN :: r ++ COMMA :: ws1 ++ c ++ COMMA :: ws2 ++ v ++ [RPAREN]),
      rest.
    split; [exists r, c, v, ws1, ws2; auto 10|].
    simpl. repeat (rewrite <- app_assoc; simpl). reflexivity.
  - intros (p & rest & (r & c & v & ws1 & ws2 & Hr & Hc & Hv & Hw1 & Hw2 & ->)
            & ->).
    exists (r, c, v). apply match_element_Some.
    exists ws1, ws2, rest. do 5 (split; [assumption|]).
    simpl. repeat (rewrite <- app_assoc; simpl). reflexivity.
Qed.

End Matchers.

(** ** Which texts are rejected *)

Section Rejection.

Lemma outcome_cases {A} (o : outcome A) :
  returns o \/ exists e, o = Throw e.
Proof. destruct o; [left | right]; eexists; reflexivity. Qed.

Lemma returns_not_throws {A} k (o : outcome A) : returns o -> ~ throws k o.
Proof. intros [a ->] (e & [=] & _). Qed.

Lemma match_element_None line :
  match_element line = None <-> ~ begins_with element_form line.
Proof.
  rewrite <- match_element_begins, eq_None_not_Some. reflexivity.
Qed.

Lemma match_dimension_None name line :
  match_dimension name line = None <->
  ~ begins_with (dimension_form name) line.
Proof.
  rewrite <- match_dimension_begins, eq_None_not_Some. reflexivity.
Qed.

(** The element loop stops at the first line that is neither blank nor an
    element line, and only there. *)
Lemma load_elements_Throw i lines m :
  (exists e, load_elements i lines m = Throw e) <->
  exists (j : nat) line,
    lines !! j = Some line /\ trim line <> []
    /\ ~ begins_with element_form (trim line).
Proof.
  revert i m. induction lines as [|l lines IH]; intros i m.
  - split; [intros [e [=]] | intros (j & line & [=] & _)].
  - cbn [load_elements]. split.
    + intros [e He]. destruct (trim l) as [|x t] eqn:Hl.
      * destruct (proj1 (IH _ _) (ex_intro _ e He))
          as (j & line & Hj & Hne & Hbad).
        exists (S j), line. auto.
      * destruct (match_element (x :: t)) as [[[r c] v]|] eqn:Hm.
        -- destruct (proj1 (IH _ _) (ex_intro _ e He))
             as (j & line & Hj & Hne & Hbad).
           exists (S j), line. auto.
        -- exists 0%nat, l. rewrite Hl. split; [reflexivity|].
           split; [discriminate | now apply match_element_None].
    + intros (j & line & Hj & Hne & Hbad).
      destruct j as [|j]; simpl in Hj.
      * injection Hj as ->. apply match_element_None in Hbad.
        destruct (trim line) as [|x t]; [congruence|]. rewrite Hbad. eauto.
      * destruct (trim l) as [|x t].
        -- apply IH. eauto.
        -- destruct (match_element (x :: t)) as [[[r c] v]|]; [|eauto].
           apply IH. eauto.
Qed.

Lemma load_elements_kind i lines m e :
  load_elements i lines m = Throw e -> kind e = FormatError.
Proof.
  revert i m. induction lines as [|l lines IH]; intros i m; simpl;
    [discriminate|].
  destruct (trim l) as [|x t]; [apply IH|].
  destruct (match_element (x :: t)) as [[[r c] v]|]; [apply IH|].
  now intros [= <-].
Qed.

Lemma loadMatrixFromFile_kind text e :
  loadMatrixFromFile text = Throw e -> kind e = FormatError.
Proof.
  unfold loadMatrixFromFile.
  destruct (split_on LF text) as [|l0 [|l1 rest]]; try (now intros [= <-]).
  destruct (match_dimension _ (trim l0)); [|now intros [= <-]].
  destruct (match_dimension _ (trim l1)); [|now intros [= <-]].
  apply load_elements_kind.
Qed.

Lemma loadMatrixFromFile_Throw text :
  (exists e, loadMatrixFromFile text = Throw e) <-> malformed_line_start text.
Proof.
  unfold malformed_line_start, malformed, loadMatrixFromFile.
  destruct (split_on LF text) as [|l0 [|l1 rest]]; simpl.
  - split; [left; lia | eauto].
  - split; [left; lia | eauto].
  - destruct (match_dimension (str "rows=") (trim l0)) as [tr|] eqn:Hr.
    + destruct (match_dimension (str "cols=") (trim l1)) as [tc|] eqn:Hc.
      * rewrite load_elements_Throw. split.
        -- intros (j & line & Hj & Hne & Hbad). right. right. right.
           exists (S (S j)), line. repeat split; auto. lia.
        -- intros [Hlen | [Hbad | [Hbad | (i & line & Hi & Hl & Hne & Hbad)]]].
           ++ lia.
           ++ apply match_dimension_None in Hbad. congruence.
           ++ apply match_dimension_None in Hbad. congruence.
           ++ destruct i as [|[|j]]; try lia. exists j, line. auto.
      * split; [|eauto]. intros _. right. right. left.
        now apply match_dimension_None.
    + split; [|eauto].
      intros _. right. left. now apply match_dimension_None.
Qed.

End Rejection.

(** ** The property bag and the element operations *)

Section Elements.
Local Open Scope Z_scope.
Implicit Types (k : key) (obj : list (key * Z)) (m : SparseMatrix).

Lemma obj_get_set_eq k v obj : obj_get k (obj_set k v obj) = Some v.
Proof.
  induction obj as [|[k' v'] obj IH]; simpl.
  - now rewrite decide_True.
  - destruct (decide (k = k')) as [->|Hne]; simpl.
    + now rewrite decide_True.
    + now rewrite decide_False.
Qed.

Lemma obj_get_set_ne k k' v obj :
  k <> k' -> obj_get k' (obj_set k v obj) = obj_get k' obj.
Proof.
  intros Hne. induction obj as [|[k0 v0] obj IH]; simpl.
  - now rewrite decide_False by congruence.
  - destruct (decide (k = k0)) as [->|Hne0]; simpl.
    + now rewrite !decide_False by congruence.
    + now rewrite IH.
Qed.

Lemma obj_get_None k obj : obj_get k obj = None <-> k ∉ obj.*1.
Proof.
  induction obj as [|[k' v'] obj IH]; csimpl.
  - split; [intros _; apply not_elem_of_nil | reflexivity].
  - rewrite not_elem_of_cons. csimpl.
    destruct (decide (k = k')) as [->|Hne]; [split; [discriminate|tauto]|].
    rewrite IH. tauto.
Qed.

Lemma obj_get_Some_elem k v obj : obj_get k obj = Some v -> (k, v) ∈ obj.
Proof.
  induction obj as [|[k' v'] obj IH]; csimpl; [discriminate|].
  rewrite elem_of_cons.
  destruct (decide (k = k')) as [->|Hne]; [intros [= ->]; auto | auto].
Qed.

Lemma obj_get_elem k v obj :
  NoDup obj.*1 -> (k, v) ∈ obj -> obj_get k obj = Some v.
Proof.
  induction obj as [|[k' v'] obj IH]; csimpl.
  - intros _ []%elem_of_nil.
  - rewrite NoDup_cons, elem_of_cons. csimpl.
    intros [Hnotin Hnd] [[= -> ->] | Hin]; [now rewrite decide_True|].
    rewrite decide_False; [auto|]. intros ->.
    apply Hnotin. now apply (list_elem_of_fmap_2 fst) in Hin.
Qed.

(** A key that is not there is added last. *)
Lemma obj_set_new k v obj : k ∉ obj.*1 -> obj_set k v obj = obj ++ [(k, v)].
Proof.
  induction obj as [|[k' v'] obj IH]; csimpl; [reflexivity|].
  rewrite not_elem_of_cons. csimpl. intros [Hne Hnotin].
  rewrite decide_False by assumption. now rewrite IH.
Qed.

(** A key that is there keeps its place. *)
Lemma obj_set_keys_old k v obj :
  k ∈ obj.*1 -> (obj_set k v obj).*1 = obj.*1.
Proof.
  induction obj as [|[k' v'] obj IH]; csimpl.
  - intros []%elem_of_nil.
  - rewrite elem_of_cons. csimpl.
    destruct (decide (k = k')) as [->|Hne]; csimpl; [reflexivity|].
    intros [E|Hin]; [congruence | now rewrite IH].
Qed.

Lemma obj_set_NoDup k v obj : NoDup obj.*1 -> NoDup (obj_set k v obj).*1.
Proof.
  intros Hnd. destruct (decide (k ∈ obj.*1)) as [Hin|Hnotin].
  - now rewrite obj_set_keys_old.
  - rewrite obj_set_new, fmap_app by assumption.
    apply NoDup_app. split; [assumption|]. split; [|apply NoDup_singleton].
    intros x Hx ->%list_elem_of_singleton. auto.
Qed.

Lemma obj_set_elem k v k' v' obj :
  (k', v') ∈ obj_set k v obj -> (k', v') = (k, v) \/ (k', v') ∈ obj.
Proof.
  induction obj as [|[k0 v0] obj IH]; csimpl.
  - rewrite list_elem_of_singleton. auto.
  - destruct (decide (k = k0)) as [->|Hne]; rewrite !elem_of_cons;
      intros [E|Hin]; auto.
    destruct (IH Hin); auto.
Qed.

Lemma get_set_eq m r c v :
  getMatrixElement (setMatrixElement m r c v) r c = v.
Proof.
  unfold getMatrixElement, setMatrixElement. simpl.
  now rewrite obj_get_set_eq.
Qed.

Lemma get_set_ne m r c v r' c' :
  (r, c) <> (r', c') ->
  getMatrixElement (setMatrixElement m r c v) r' c' = getMatrixElement m r' c'.
Proof.
  intros Hne. unfold getMatrixElement, setMatrixElement. simpl.
  now rewrite obj_get_set_ne.
Qed.

Lemma get_set m r c v r' c' :
  getMatrixElement (setMatrixElement m r c v) r' c'
  = if decide ((r, c) = (r', c')) then v else getMatrixElement m r' c'.
Proof.
  case_decide as E; [injection E as <- <-; apply get_set_eq|].
  now apply get_set_ne.
Qed.

Lemma rows_set m r c v :
  rows (setMatrixElement m r c v) = Z.max (rows m) (r + 1).
Proof. simpl. destruct (Z.leb_spec (rows m) r); lia. Qed.

Lemma cols_set m r c v :
  cols (setMatrixElement m r c v) = Z.max (cols m) (c + 1).
Proof. simpl. destruct (Z.leb_spec (cols m) c); lia. Qed.

Lemma unique_keys_set m r c v :
  unique_keys m -> unique_keys (setMatrixElement m r c v).
Proof. apply obj_set_NoDup. Qed.

Lemma in_extents_set m r c v :
  in_extents m -> 0 <= r -> 0 <= c -> in_extents (setMatrixElement m r c v).
Proof.
  intros Hm Hr Hc r' c' v' Hin. rewrite rows_set, cols_set.
  apply obj_set_elem in Hin as [[= -> -> ->] | Hin]; [lia|].
  apply Hm in Hin. lia.
Qed.



End Elements.

(** ** Sequences of writes *)

Section Writes.
Local Open Scope Z_scope.
Implicit Types (m : SparseMatrix) (P : Z -> Z -> Prop).


Lemma written_one P m r c v : P r c -> written P m (setMatrixElement m r c v).
Proof. intros HP. eapply written_cons; [eassumption | constructor]. Qed.

Lemma written_unique_keys P m m' :
  written P m m' -> unique_keys m -> unique_keys m'.
Proof. induction 1; auto using unique_keys_set. Qed.

Lemma written_in_extents P m m' :
  written P m m' -> (forall r c, P r c -> 0 <= r /\ 0 <= c) ->
  in_extents m -> in_extents m'.
Proof.
  intros Hw HP. induction Hw as [|m m' r c v Hrc _ IH]; [auto|].
  intros Hm. apply IH, in_extents_set; [assumption | apply (HP r c Hrc) ..].
Qed.

(** Writes within the extents leave the extents as they are. *)
Lemma written_extents P m m' :
  written P m m' -> (forall r c, P r c -> r < rows m /\ c < cols m) ->
  rows m' = rows m /\ cols m' = cols m.
Proof.
  intros Hw. induction Hw as [|m m' r c v Hrc _ IH]; [auto|].
  intros HP. destruct (HP r c Hrc) as [Hr Hc].
  assert (rows (setMatrixElement m r c v) = rows m) as Er
    by (rewrite rows_set; lia).
  assert (cols (setMatrixElement m r c v) = cols m) as Ec
    by (rewrite cols_set; lia).
  rewrite <- Er, <- Ec. apply IH. rewrite Er, Ec. exact HP.
Qed.



Lemma accumulate_elements_written P op src res :
  (forall r c v, ((r, c), v) ∈ src -> P r c) ->
  written P res (accumulate_elements op src res).
Proof.
  revert res. induction src as [|[[r c] v] src IH]; intros res HP; simpl.
  - constructor.
  - eapply written_cons; [apply (HP r c v); left|].
    apply IH. intros r' c' v' Hin. apply (HP r' c' v'). now right.
Qed.



End Writes.

(** ** Finite sums *)

Section Sums.
Local Open Scope Z_scope.
Implicit Types (f g : Z -> Z) (ks : list Z).










End Sums.

(** ** What the loops of the operators compute *)

Section Loops.
Local Open Scope Z_scope.
Implicit Types (m b res : SparseMatrix) (src : list (key * Z)).

Lemma copy_elements_fresh rws cls pre src :
  NoDup (pre ++ src).*1 ->
  (forall r c v, ((r, c), v) ∈ src -> r < rws /\ c < cls) ->
  copy_elements src {| rows := rws; cols := cls; elements := pre |}
  = {| rows := rws; cols := cls; elements := pre ++ src |}.
Proof.
  revert pre. induction src as [|[[r c] v] src IH]; intros pre Hnd Hin; simpl.
  - now rewrite app_nil_r.
  - destruct (Hin r c v) as [Hr Hc]; [left|].
    unfold setMatrixElement at 1. simpl.
    rewrite (proj2 (Z.leb_gt rws r)), (proj2 (Z.leb_gt cls c)) by assumption.
    rewrite obj_set_new.
    + rewrite IH.
      * now rewrite <- app_assoc.
      * now rewrite <- app_assoc.
      * intros r' c' v' H'. apply (Hin r' c' v'). now right.
    + rewrite fmap_app, NoDup_app in Hnd. destruct Hnd as (_ & Hdis & _).
      intros Hk. apply (Hdis _ Hk). left.
Qed.

(** Copying the elements of a valid matrix into an empty one of the same
    extents rebuilds the matrix. *)
Lemma copy_elements_valid m :
  valid m ->
  copy_elements (elements m) (createSparseMatrix (rows m) (cols m)) = m.
Proof.
  intros [Hu He]. destruct m as [rws cls els].
  unfold createSparseMatrix. simpl in *.
  rewrite copy_elements_fresh; [reflexivity | exact Hu |].
  intros r c v Hin. apply He in Hin. simpl in Hin. lia.
Qed.

Lemma accumulate_elements_get op src res i j :
  (forall x, op x 0 = x) -> NoDup src.*1 ->
  getMatrixElement (accumulate_elements op src res) i j
  = op (getMatrixElement res i j) (default 0 (obj_get (i, j) src)).
Proof.
  intros Hop. revert res.
  induction src as [|[[r c] v] src IH]; intros res; csimpl.
  - intros _. now rewrite Hop.
  - rewrite NoDup_cons. intros [Hk Hnd].
    change (accumulate_elements op src ?x) with (accumulate_elements op src x).
    rewrite (IH _ Hnd), get_set.
    destruct (decide ((r, c) = (i, j))) as [[= -> ->]|Hne].
    + rewrite decide_True by reflexivity.
      apply obj_get_None in Hk. rewrite Hk. simpl. now rewrite Hop.
    + now rewrite decide_False by congruence.
Qed.




End Loops.

(** ** The three operators *)

Section Operators.
Local Open Scope Z_scope.
Implicit Types (a b m : SparseMatrix).

Lemma dimensions_differ_false a b :
  dimensions_differ a b = false <-> rows a = rows b /\ cols a = cols b.
Proof.
  unfold dimensions_differ.
  rewrite orb_false_iff, !negb_false_iff, !Z.eqb_eq. reflexivity.
Qed.

Lemma dimensions_differ_true a b :
  dimensions_differ a b = true <-> ~ (rows a = rows b /\ cols a = cols b).
Proof.
  rewrite <- dimensions_differ_false. destruct (dimensions_differ a b);
    split; congruence.
Qed.

Lemma fold_left_pointwise {X Y} (f g : X -> Y -> X) (l : list Y) (x : X) :
  (forall x y, f x y = g x y) -> fold_left f l x = fold_left g l x.
Proof.
  intros H. revert x. induction l as [|y l IH]; intros x; simpl;
    [reflexivity|]. now rewrite H, IH.
Qed.

Lemma addMatrices_loops a b :
  addMatrices a b
  = if dimensions_differ a b then Throw AdditionDimensions
    else Return (accumulate_elements Z.add (elements b)
                   (copy_elements (elements a)
                      (createSparseMatrix (rows a) (cols a)))).
Proof. reflexivity. Qed.

Lemma subtractMatrices_loops a b :
  subtractMatrices a b
  = if dimensions_differ a b then Throw SubtractionDimensions
    else Return (accumulate_elements Z.sub (elements b)
                   (copy_elements (elements a)
                      (createSparseMatrix (rows a) (cols a)))).
Proof. reflexivity. Qed.

Lemma multiplyMatrices_loops a b :
  multiplyMatrices a b = multiply_with true a b.
Proof.
  unfold multiplyMatrices, multiply_with.
  destruct (negb (cols a =? rows b)); [reflexivity|]. cbv zeta. f_equal.
  apply fold_left_pointwise. intros res [[r c] v]. unfold multiply_row.
  apply fold_left_pointwise. intros res' k. cbv zeta.
  now destruct (getMatrixElement b c k =? 0).
Qed.


Lemma get_stored m i j :
  default 0 (obj_get (i, j) (elements m)) = getMatrixElement m i j.
Proof. reflexivity. Qed.

(** The two loops shared by [addMatrices] and [subtractMatrices], on valid
    operands of equal extents. *)
Lemma combine_valid op a b :
  (forall x, op x 0 = x) -> valid a -> valid b ->
  rows a = rows b -> cols a = cols b ->
  let result :=
    accumulate_elements op (elements b)
      (copy_elements (elements a) (createSparseMatrix (rows a) (cols a))) in
  valid result /\ rows result = rows a /\ cols result = cols a
  /\ forall i j, getMatrixElement result i j
                 = op (getMatrixElement a i j) (getMatrixElement b i j).
Proof.
  intros Hop Ha Hb Hrows Hcols. rewrite (copy_elements_valid a Ha). cbv zeta.
  pose proof (accumulate_elements_written
                (fun r c => 0 <= r < rows a /\ 0 <= c < cols a)
                op (elements b) a) as Hw.
  destruct Ha as [Hua Hea], Hb as [Hub Heb].
  assert (written (fun r c => 0 <= r < rows a /\ 0 <= c < cols a) a
            (accumulate_elements op (elements b) a)) as Hw'.
  { apply Hw. intros r c v Hin. apply Heb in Hin. lia. }
  clear Hw. split; [split|].
  - eapply written_unique_keys; eassumption.
  - eapply written_in_extents; [eassumption | | assumption].
    simpl. intros; lia.
  - destruct (written_extents _ _ _ Hw') as [-> ->]; [simpl; intros; lia|].
    split; [reflexivity|]. split; [reflexivity|].
    intros i j. rewrite accumulate_elements_get by assumption.
    now rewrite get_stored.
Qed.

Lemma addMatrices_valid a b :
  valid a -> valid b -> rows a = rows b -> cols a = cols b ->
  exists m, addMatrices a b = Return m /\ valid m
            /\ rows m = rows a /\ cols m = cols a
            /\ forall i j, getMatrixElement m i j
                           = getMatrixElement a i j + getMatrixElement b i j.
Proof.
  intros Ha Hb Hr Hc. rewrite addMatrices_loops.
  rewrite (proj2 (dimensions_differ_false a b)) by auto.
  eexists. split; [reflexivity|].
  apply (combine_valid Z.add a b); auto. intros; lia.
Qed.



End Operators.

(** ** The text of a matrix *)

Section Serialization.
Local Open Scope N_scope.

Lemma trim_trimmed s : trimmed s -> trim s = s.
Proof.
  intros [Hs Hr]. unfold trim.
  now rewrite (drop_while_id _ s Hs), (drop_while_id _ _ Hr), rev_involutive.
Qed.

Lemma trim_newline s : s <> [] -> trimmed s -> trim (s ++ [LF]) = s.
Proof.
  intros Hne [Hs Hr]. unfold trim.
  rewrite (drop_while_id _ (s ++ [LF]))
    by (destruct s; [congruence | exact Hs]).
  rewrite rev_app_distr. simpl.
  now rewrite (drop_while_id _ _ Hr), rev_involutive.
Qed.

Lemma trimmed_app s t : s <> [] -> t <> [] ->
  stops is_space s -> stops is_space (rev t) -> trimmed (s ++ t).
Proof.
  intros Hs Ht Hs' Ht'. split.
  - destruct s; [congruence | exact Hs'].
  - rewrite rev_app_distr. destruct (rev t) eqn:E; [|exact Ht'].
    apply (f_equal (@rev _)) in E. rewrite rev_involutive in E.
    simpl in E. congruence.
Qed.

Lemma split_on_none sep s : sep ∉ s -> split_on sep s = [s].
Proof.
  induction s as [|c s IH]; simpl; [reflexivity|].
  rewrite not_elem_of_cons. intros [Hne Hs].
  rewrite (proj2 (N.eqb_neq c sep)) by congruence. now rewrite IH.
Qed.

Lemma split_on_app sep s t :
  sep ∉ s -> split_on sep (s ++ sep :: t) = s :: split_on sep t.
Proof.
  induction s as [|c s IH]; simpl.
  - now rewrite N.eqb_refl.
  - rewrite not_elem_of_cons. intros [Hne Hs].
    rewrite (proj2 (N.eqb_neq c sep)) by congruence. now rewrite IH.
Qed.

Lemma split_on_join sep ls :
  ls <> [] -> Forall (fun l => sep ∉ l) ls -> split_on sep (join sep ls) = ls.
Proof.
  intros Hne Hls. induction Hls as [|l ls Hl Hls IH]; [congruence|].
  destruct ls as [|l' ls]; simpl.
  - now apply split_on_none.
  - rewrite split_on_app by assumption. f_equal. now apply IH.
Qed.

Lemma join_newlines ls :
  ls <> [] -> flat_map (fun l => l ++ [LF]) ls = join LF ls ++ [LF].
Proof.
  induction ls as [|l ls IH]; [congruence|]. intros _.
  destruct ls as [|l' ls]; simpl.
  - now rewrite app_nil_r.
  - simpl in IH. rewrite IH by discriminate.
    rewrite <- !app_assoc. reflexivity.
Qed.

Lemma join_trimmed ls :
  ls <> [] -> Forall (fun l => l <> [] /\ trimmed l) ls ->
  join LF ls <> [] /\ trimmed (join LF ls).
Proof.
  intros Hne Hls. induction Hls as [|l ls [Hl Ht] Hls IH]; [congruence|].
  destruct ls as [|l' ls]; [auto|].
  destruct IH as [IHne [_ IHr]]; [discriminate|].
  change (join LF (l :: l' :: ls)) with (l ++ LF :: join LF (l' :: ls)).
  split; [destruct l; [congruence | discriminate]|].
  split; [destruct l; [congruence | apply Ht]|].
  change (l ++ LF :: join LF (l' :: ls))
    with (l ++ [LF] ++ join LF (l' :: ls)).
  rewrite !rev_app_distr.
  destruct (rev (join LF (l' :: ls))) eqn:E; [|exact IHr].
  apply (f_equal (@rev _)) in E. rewrite rev_involutive in E.
  destruct (IHne E).
Qed.

(** The characters of a number are digits and the sign. *)
Lemma show_Z_chars z x : x ∈ show_Z z -> is_digit x = true \/ x = MINUS.
Proof.
  assert (forall n, x ∈ show_N n -> is_digit x = true) as HN.
  { intros n Hx. destruct (show_N_numeral n) as [_ Hd].
    rewrite Forall_forall in Hd. exact (Hd x Hx). }
  destruct z; simpl; [left; eauto .. |].
  rewrite elem_of_cons. intros [->|Hx]; [right; reflexivity | left; eauto].
Qed.

Lemma show_Z_without z x :
  is_digit x = false -> x <> MINUS -> x ∉ show_Z z.
Proof. intros Hd Hm [H|H]%show_Z_chars; congruence. Qed.

Lemma show_Z_nonempty z : show_Z z <> [].
Proof.
  destruct (show_Z_signed z) as [[H _] | (ds & -> & _)];
    [assumption | discriminate].
Qed.

Lemma show_Z_trimmed z : trimmed (show_Z z).
Proof.
  assert (forall s, (forall x, x ∈ s -> is_space x = false) ->
                    stops is_space s) as Hstops.
  { intros [|x s] H; [exact I | apply H; left]. }
  split; apply Hstops; intros x Hx.
  - apply show_Z_chars in Hx as [Hx | ->];
      [now apply digit_not_space | reflexivity].
  - apply list_elem_of_In, in_rev, list_elem_of_In, show_Z_chars in Hx
      as [Hx | ->]; [now apply digit_not_space | reflexivity].
Qed.

Ltac not_in_literal :=
  let H := fresh in
  intros H; cbv in H;
  repeat (apply elem_of_cons in H as [H|H]; [discriminate H|]);
  now apply elem_of_nil in H.

Lemma split_key_text r c :
  split_on COMMA (key_text (r, c)) = [show_Z r; show_Z c].
Proof.
  unfold key_text. simpl fst. simpl snd.
  rewrite split_on_app by (now apply show_Z_without).
  now rewrite split_on_none by (now apply show_Z_without).
Qed.

(** [key.split(',').map(Number)] gives back the two numbers a key was built
    from ([Number] and [parseInt] agree on the decimal notation of an
    integer), so the text of a key determines the key. *)
Lemma key_text_coordinates r c :
  map parseInt (split_on COMMA (key_text (r, c))) = [r; c].
Proof. rewrite split_key_text. simpl. now rewrite !parseInt_show_Z. Qed.

Lemma key_text_inj k k' : key_text k = key_text k' -> k = k'.
Proof.
  destruct k as [r c], k' as [r' c']. intros E.
  pose proof (key_text_coordinates r c) as H.
  rewrite E, key_text_coordinates in H. congruence.
Qed.

Lemma element_line_text r c v :
  element_line (r, c) v = element_text r c v ++ [LF].
Proof.
  unfold element_line, element_text. rewrite split_key_text. simpl nth.
  rewrite <- !app_assoc. reflexivity.
Qed.

Lemma dimension_text_trimmed name n :
  name <> [] -> stops is_space name ->
  dimension_text name n <> [] /\ trimmed (dimension_text name n).
Proof.
  intros Hne Hs. unfold dimension_text. split.
  - destruct name; [congruence | discriminate].
  - apply trimmed_app; auto using show_Z_nonempty.
    apply show_Z_trimmed.
Qed.

Lemma element_text_trimmed r c v :
  element_text r c v <> [] /\ trimmed (element_text r c v).
Proof.
  unfold element_text. split; [discriminate|].
  split; [reflexivity|]. rewrite !rev_app_distr. reflexivity.
Qed.

Lemma dimension_text_line name n :
  LF ∉ name -> LF ∉ dimension_text name n.
Proof.
  intros Hname. unfold dimension_text. rewrite not_elem_of_app.
  split; [assumption | now apply show_Z_without].
Qed.

Lemma element_text_line r c v : LF ∉ element_text r c v.
Proof.
  unfold element_text. rewrite !not_elem_of_app.
  repeat split; try (now apply show_Z_without); not_in_literal.
Qed.

Lemma matrix_lines_trimmed m :
  Forall (fun l => l <> [] /\ trimmed l) (matrix_lines m).
Proof.
  unfold matrix_lines. constructor.
  { apply dimension_text_trimmed; [discriminate | reflexivity]. }
  constructor.
  { apply dimension_text_trimmed; [discriminate | reflexivity]. }
  apply Forall_forall. intros l Hl%list_elem_of_In%in_map_iff.
  destruct Hl as ([[r c] v] & <- & _). apply element_text_trimmed.
Qed.

Lemma matrix_lines_line m : Forall (fun l => LF ∉ l) (matrix_lines m).
Proof.
  unfold matrix_lines. constructor.
  { apply dimension_text_line. not_in_literal. }
  constructor.
  { apply dimension_text_line. not_in_literal. }
  apply Forall_forall. intros l Hl%list_elem_of_In%in_map_iff.
  destruct Hl as ([[r c] v] & <- & _). apply element_text_line.
Qed.

Lemma element_lines_text (els : list (key * Z)) :
  flat_map (fun '(k, value) => element_line k value) els
  = flat_map (fun l => l ++ [LF])
      (map (fun '((r, c), v) => element_text r c v) els).
Proof.
  induction els as [|[[r c] v] els IH]; [reflexivity|].
  cbn [flat_map map]. now rewrite element_line_text, IH.
Qed.

(** The text of a matrix is its lines, with a line feed between them. *)
Lemma matrixToString_lines m : matrixToString m = join LF (matrix_lines m).
Proof.
  unfold matrixToString.
  assert (str "rows=" ++ show_Z (rows m) ++ [LF]
          ++ str "cols=" ++ show_Z (cols m) ++ [LF]
          ++ flat_map (fun '(k, value) => element_line k value) (elements m)
          = flat_map (fun l => l ++ [LF]) (matrix_lines m)) as ->.
  { unfold matrix_lines, dimension_text. cbn [flat_map].
    rewrite element_lines_text, <- !app_assoc. reflexivity. }
  rewrite join_newlines by discriminate.
  destruct (join_trimmed (matrix_lines m)) as [Hne Ht];
    [discriminate | apply matrix_lines_trimmed |].
  now apply trim_newline.
Qed.

Lemma match_dimension_text name n :
  (0 <= n)%Z ->
  match_dimension name (dimension_text name n) = Some (show_Z n).
Proof.
  intros Hn. apply match_dimension_Some. exists [].
  split; [now apply show_Z_nonneg|]. now rewrite app_nil_r.
Qed.

Lemma match_element_text r c v :
  (0 <= r)%Z -> (0 <= c)%Z ->
  match_element (element_text r c v) = Some (show_Z r, show_Z c, show_Z v).
Proof.
  intros Hr Hc. apply match_element_Some. exists [32], [32], [].
  split; [now apply show_Z_nonneg|]. split; [now apply show_Z_nonneg|].
  split; [apply show_Z_signed|].
  split; [repeat constructor|]. split; [repeat constructor|].
  unfold element_text. reflexivity.
Qed.

(** The element loop on the lines of a matrix writes its elements in
    order. *)
Lemma load_elements_text i els acc :
  (forall r c v, ((r, c), v) ∈ els -> (0 <= r)%Z /\ (0 <= c)%Z) ->
  load_elements i (map (fun '((r, c), v) => element_text r c v) els) acc
  = Return (copy_elements els acc).
Proof.
  revert i acc. induction els as [|[[r c] v] els IH]; intros i acc Hpos;
    [reflexivity|].
  cbn [map load_elements].
  destruct (element_text_trimmed r c v) as [Hne Ht].
  rewrite (trim_trimmed _ Ht).
  destruct (Hpos r c v) as [Hr Hc]; [left|].
  rewrite (match_element_text r c v Hr Hc), !parseInt_show_Z.
  destruct (element_text r c v) eqn:E; [congruence|].
  apply IH. intros r' c' v' Hin. apply (Hpos r' c' v'). now right.
Qed.

End Serialization.

(** ** What a text is read as *)

Section Parsing.
Local Open Scope Z_scope.












End Parsing.

(** ** The operators on the store and on values *)

Section Store.
Local Open Scope Z_scope.
Implicit Types (h : Heap.heap) (m a b : SparseMatrix).

Lemma bind_load l h m {B} (k : SparseMatrix -> Heap.M B) :
  h !! l = Some m -> Heap.bind (Heap.load l) k h = k m h.
Proof. intros H. unfold Heap.bind, Heap.load. now rewrite H. Qed.

Lemma run_getMatrixElement l h m row col :
  h !! l = Some m ->
  Heap.getMatrixElement l row col h
  = (Return (Matrix.getMatrixElement m row col), h).
Proof. intros H. unfold Heap.getMatrixElement. now rewrite (bind_load l h m). Qed.

Lemma run_setMatrixElement l h m row col value :
  h !! l = Some m ->
  Heap.setMatrixElement l row col value h
  = (Return tt, <[l := Matrix.setMatrixElement m row col value]> h).
Proof. intros H. unfold Heap.setMatrixElement. now rewrite (bind_load l h m). Qed.

Lemma run_copy result src h m :
  h !! result = Some m ->
  Heap.for_in src (fun '((row, col), value) =>
                     Heap.setMatrixElement result row col value) h
  = (Return tt, <[result := copy_elements src m]> h).
Proof.
  revert h m. induction src as [|[[r c] v] src IH]; intros h m Hm.
  - simpl. unfold Heap.ret. now rewrite insert_id.
  - cbn [Heap.for_in]. unfold Heap.bind at 1.
    rewrite (run_setMatrixElement result h m) by assumption.
    rewrite (IH _ (Matrix.setMatrixElement m r c v))
      by apply lookup_insert_eq.
    now rewrite insert_insert_eq.
Qed.

Lemma run_accumulate op result src h m :
  h !! result = Some m ->
  Heap.for_in src (fun '((row, col), value) =>
                     Heap.bind (Heap.getMatrixElement result row col)
                       (fun currentValue =>
                          Heap.setMatrixElement result row col
                            (op currentValue value))) h
  = (Return tt, <[result := accumulate_elements op src m]> h).
Proof.
  revert h m. induction src as [|[[r c] v] src IH]; intros h m Hm.
  - simpl. unfold Heap.ret. now rewrite insert_id.
  - cbn [Heap.for_in]. unfold Heap.bind at 1. unfold Heap.bind at 1.
    rewrite (run_getMatrixElement result h m) by assumption.
    rewrite (run_setMatrixElement result h m) by assumption.
    rewrite (IH _ (Matrix.setMatrixElement m r c
                     (op (Matrix.getMatrixElement m r c) v)))
      by apply lookup_insert_eq.
    now rewrite insert_insert_eq.
Qed.

Lemma run_multiply_row result matrix2 b row col value ks h m :
  h !! result = Some m -> h !! matrix2 = Some b -> result <> matrix2 ->
  Heap.for_in ks (fun k =>
    Heap.bind (Heap.getMatrixElement matrix2 col k) (fun otherValue =>
      if negb (otherValue =? 0) then
        Heap.bind (Heap.getMatrixElement result row k) (fun currentValue =>
          Heap.setMatrixElement result row k
            (currentValue + value * otherValue))
      else Heap.ret tt)) h
  = (Return tt,
     <[result :=
         fold_left (fun result k =>
           let otherValue := Matrix.getMatrixElement b col k in
           if true && (otherValue =? 0) then result
           else
             let currentValue := Matrix.getMatrixElement result row k in
             Matrix.setMatrixElement result row k
               (currentValue + value * otherValue)) ks m]> h).
Proof.
  intros Hm Hb Hne. revert h m Hm Hb.
  induction ks as [|k ks IH]; intros h m Hm Hb.
  - simpl. unfold Heap.ret. now rewrite insert_id.
  - cbn [Heap.for_in fold_left]. unfold Heap.bind at 1. unfold Heap.bind at 1.
    rewrite (run_getMatrixElement matrix2 h b) by assumption.
    cbv zeta. rewrite andb_true_l.
    destruct (Matrix.getMatrixElement b col k =? 0) eqn:E; cbn [negb].
    + unfold Heap.ret at 1. now apply IH.
    + unfold Heap.bind at 1.
      rewrite (run_getMatrixElement result h m) by assumption.
      rewrite (run_setMatrixElement result h m) by assumption.
      rewrite (IH _ (Matrix.setMatrixElement m row k
                       (Matrix.getMatrixElement m row k
                        + value * Matrix.getMatrixElement b col k))).
      * now rewrite insert_insert_eq.
      * apply lookup_insert_eq.
      * now rewrite lookup_insert_ne.
Qed.

Lemma run_multiply_rows result matrix2 b src h m :
  h !! result = Some m -> h !! matrix2 = Some b -> result <> matrix2 ->
  Heap.for_in src (fun '((row, col), value) =>
    Heap.bind (Heap.load matrix2) (fun m2 =>
      Heap.for_in (seqZ 0 (cols m2)) (fun k =>
        Heap.bind (Heap.getMatrixElement matrix2 col k) (fun otherValue =>
          if negb (otherValue =? 0) then
            Heap.bind (Heap.getMatrixElement result row k)
              (fun currentValue =>
                 Heap.setMatrixElement result row k
                   (currentValue + value * otherValue))
          else Heap.ret tt)))) h
  = (Return tt,
     <[result :=
         fold_left (fun result '((row, col), value) =>
                      multiply_row true b row col value result) src m]> h).
Proof.
  intros Hm Hb Hne. revert h m Hm Hb.
  induction src as [|[[r c] v] src IH]; intros h m Hm Hb.
  - simpl. unfold Heap.ret. now rewrite insert_id.
  - cbn [Heap.for_in fold_left]. unfold Heap.bind at 1.
    rewrite (bind_load matrix2 h b) by assumption.
    rewrite (run_multiply_row result matrix2 b r c v _ h m) by assumption.
    fold (multiply_row true b r c v m).
    rewrite (IH _ (multiply_row true b r c v m)).
    + now rewrite insert_insert_eq.
    + apply lookup_insert_eq.
    + now rewrite lookup_insert_ne.
Qed.

Lemma fresh_not_stored h l m : h !! l = Some m -> fresh (dom h) <> l.
Proof.
  intros Hl E. apply (is_fresh (dom h)). rewrite E.
  apply elem_of_dom. eauto.
Qed.

Lemma fresh_unused h : h !! fresh (dom h) = None.
Proof. apply not_elem_of_dom, is_fresh. Qed.

(** The operators on the store compute what the operators on values do, in
    a new object. *)
Lemma run_addMatrices h matrix1 matrix2 a b :
  h !! matrix1 = Some a -> h !! matrix2 = Some b ->
  Heap.addMatrices matrix1 matrix2 h
  = match Matrix.addMatrices a b with
    | Return m => (Return (fresh (dom h)), <[fresh (dom h) := m]> h)
    | Throw e => (Throw e, h)
    end.
Proof.
  intros Ha Hb. unfold Heap.addMatrices. rewrite addMatrices_loops.
  rewrite (bind_load matrix1 h a), (bind_load matrix2 h b) by assumption.
  fold (dimensions_differ a b).
  destruct (dimensions_differ a b); [reflexivity|].
  unfold Heap.bind at 1. unfold Heap.createSparseMatrix, Heap.alloc.
  pose proof (fresh_not_stored h _ _ Ha) as H1.
  pose proof (fresh_not_stored h _ _ Hb) as H2.
  set (result := fresh (dom h)) in *.
  rewrite (bind_load matrix1 _ a) by now rewrite lookup_insert_ne.
  unfold Heap.bind at 1. rewrite (run_copy result _ _ _ (lookup_insert_eq _ _ _)).
  rewrite insert_insert_eq.
  rewrite (bind_load matrix2 _ b) by now rewrite lookup_insert_ne.
  unfold Heap.bind at 1.
  rewrite (run_accumulate Z.add result _ _ _ (lookup_insert_eq _ _ _)).
  now rewrite insert_insert_eq.
Qed.

Lemma run_subtractMatrices h matrix1 matrix2 a b :
  h !! matrix1 = Some a -> h !! matrix2 = Some b ->
  Heap.subtractMatrices matrix1 matrix2 h
  = match Matrix.subtractMatrices a b with
    | Return m => (Return (fresh (dom h)), <[fresh (dom h) := m]> h)
    | Throw e => (Throw e, h)
    end.
Proof.
  intros Ha Hb. unfold Heap.subtractMatrices. rewrite subtractMatrices_loops.
  rewrite (bind_load matrix1 h a), (bind_load matrix2 h b) by assumption.
  fold (dimensions_differ a b).
  destruct (dimensions_differ a b); [reflexivity|].
  unfold Heap.bind at 1. unfold Heap.createSparseMatrix, Heap.alloc.
  pose proof (fresh_not_stored h _ _ Ha) as H1.
  pose proof (fresh_not_stored h _ _ Hb) as H2.
  set (result := fresh (dom h)) in *.
  rewrite (bind_load matrix1 _ a) by now rewrite lookup_insert_ne.
  unfold Heap.bind at 1. rewrite (run_copy result _ _ _ (lookup_insert_eq _ _ _)).
  rewrite insert_insert_eq.
  rewrite (bind_load matrix2 _ b) by now rewrite lookup_insert_ne.
  unfold Heap.bind at 1.
  rewrite (run_accumulate Z.sub result _ _ _ (lookup_insert_eq _ _ _)).
  now rewrite insert_insert_eq.
Qed.

Lemma run_multiplyMatrices h matrix1 matrix2 a b :
  h !! matrix1 = Some a -> h !! matrix2 = Some b ->
  Heap.multiplyMatrices matrix1 matrix2 h
  = match Matrix.multiplyMatrices a b with
    | Return m => (Return (fresh (dom h)), <[fresh (dom h) := m]> h)
    | Throw e => (Throw e, h)
    end.
Proof.
  intros Ha Hb.
  unfold Heap.multiplyMatrices. rewrite multiplyMatrices_loops.
  unfold multiply_with.
  rewrite (bind_load matrix1 h a), (bind_load matrix2 h b) by assumption.
  destruct (negb (cols a =? rows b)); [reflexivity|].
  unfold Heap.bind at 1. unfold Heap.createSparseMatrix, Heap.alloc.
  pose proof (fresh_not_stored h _ _ Ha) as H1.
  pose proof (fresh_not_stored h _ _ Hb) as H2.
  set (result := fresh (dom h)) in *.
  rewrite (bind_load matrix1 _ a) by now rewrite lookup_insert_ne.
  unfold Heap.bind at 1.
  rewrite (run_multiply_rows result matrix2 b _ _
             (Matrix.createSparseMatrix (rows a) (cols b)));
    [|apply lookup_insert_eq | now rewrite lookup_insert_ne | assumption].
  now rewrite insert_insert_eq.
Qed.

End Store.

(** ** The properties of the specification *)

Section Properties.
Local Open Scope Z_scope.

Lemma check_valid_sound m : check_valid m = true -> valid m.
Proof.
  unfold check_valid. rewrite andb_true_iff, bool_decide_eq_true.
  intros [Hu Hall]. split; [exact Hu|].
  intros r c v Hin%list_elem_of_In. rewrite forallb_forall in Hall.
  specialize (Hall _ Hin). simpl in Hall. lia.
Qed.

Lemma well_formed_by_run text m :
  loadMatrixFromFile text = Return m -> ~ malformed_line_start text.
Proof.
  intros Hrun [e He]%loadMatrixFromFile_Throw. congruence.
Qed.

Lemma well_formed_returns text :
  ~ malformed_line_start text -> returns (loadMatrixFromFile text).
Proof.
  intros Hwf. destruct (outcome_cases (loadMatrixFromFile text)) as [H|H];
    [assumption|].
  now apply loadMatrixFromFile_Throw in H.
Qed.






End Properties.

(** ** The claims *)

Section Claims.
Local Open Scope Z_scope.

(** C1, as amended. A text is rejected with a format error exactly when it
    has fewer than two lines, or its first line, trimmed, does not start
    with [rows=] and a non-negative integer, or its second line, trimmed,
    does not start with [cols=] and a non-negative integer, or a later line
    that is not blank does, trimmed, not start with an element triple; every
    other text is read. What follows the matched start of a line is not
    looked at. *)
Theorem parse_rejects_exactly text : rejects_exactly malformed_line_start text.
Proof.
  split.
  - rewrite <- loadMatrixFromFile_Throw. split.
    + intros (e & He & _). eauto.
    + intros [e He]. exists e. split; [assumption|].
      now apply loadMatrixFromFile_kind in He.
  - split.
    + intros [m Hm]. now apply well_formed_by_run in Hm.
    + apply well_formed_returns.
Qed.

(** C1, as stated, fails: the first line [rows=2.5] is not [rows=] and a
    non-negative integer, and the text is read all the same, as a matrix of
    2 rows and 3 columns. *)
Lemma parse_accepts_trailing_text :
  loadMatrixFromFile Samples.text_fraction
  = Return {| rows := 2; cols := 3; elements := [] |}
  /\ ~ rejects_exactly malformed_whole_line Samples.text_fraction.
Proof.
  assert (loadMatrixFromFile Samples.text_fraction
          = Return {| rows := 2; cols := 3; elements := [] |}) as Hrun
    by reflexivity.
  split; [exact Hrun|]. intros [Hthrows _].
  assert (malformed_whole_line Samples.text_fraction) as Hbad.
  { right. left. intros (ds & [_ Hd] & E). vm_compute in E.
    injection E as <-. inversion Hd as [|? ? _ Hd']. subst.
    inversion Hd' as [|? ? Hdot _]. discriminate Hdot. }
  apply Hthrows in Hbad as (e & He & _). congruence.
Qed.











(** C7. Each of the three operators, run on two objects of a store (the
    same object twice included), leaves every object of the store as it was,
    both operands among them, whether it returns or throws; a returned
    reference is to an object that was not in the store before, so to
    neither operand, and a run that throws is a dimension mismatch and
    leaves the store as it was. *)
Theorem operators_leave_inputs h matrix1 matrix2 a b :
  h !! matrix1 = Some a -> h !! matrix2 = Some b ->
  leaves_store h matrix1 matrix2 (Heap.addMatrices matrix1 matrix2 h)
  /\ leaves_store h matrix1 matrix2 (Heap.subtractMatrices matrix1 matrix2 h)
  /\ leaves_store h matrix1 matrix2 (Heap.multiplyMatrices matrix1 matrix2 h).
Proof.
  intros Ha Hb.
  assert (forall (o : outcome SparseMatrix),
            (forall e, o = Throw e -> kind e = DimensionMismatch) ->
            leaves_store h matrix1 matrix2
              match o with
              | Return m => (Return (fresh (dom h)), <[fresh (dom h) := m]> h)
              | Throw e => (Throw e, h)
              end) as Hrun.
  { intros [m|e] He; unfold leaves_store.
    - split.
      + intros l m' Hl. rewrite lookup_insert_ne; [assumption|].
        now apply fresh_not_stored in Hl.
      + split; [apply fresh_unused|].
        split; [now apply fresh_not_stored in Ha|].
        split; [now apply fresh_not_stored in Hb|].
        rewrite lookup_insert_eq. eauto.
    - auto. }
  rewrite (run_addMatrices h _ _ a b), (run_subtractMatrices h _ _ a b),
    (run_multiplyMatrices h _ _ a b) by assumption.
  split; [|split]; apply Hrun; intros e.
  - rewrite addMatrices_loops.
    destruct (dimensions_differ a b); now intros [= <-].
  - rewrite subtractMatrices_loops.
    destruct (dimensions_differ a b); now intros [= <-].
  - unfold multiplyMatrices.
    destruct (negb (cols a =? rows b)); now intros [= <-].
Qed.

Lemma operators_leave_inputs_witness :
  leaves_store Samples.store 0 1
    (Heap.addMatrices 0%nat 1%nat Samples.store)
  /\ leaves_store Samples.store 0 0
       (Heap.multiplyMatrices 0%nat 0%nat Samples.store).
Proof.
  split.
  - apply (operators_leave_inputs Samples.store 0%nat 1%nat
             Samples.A Samples.A'); reflexivity.
  - apply (operators_leave_inputs Samples.store 0%nat 0%nat
             Samples.A Samples.A); reflexivity.
Defined.







End Claims.

(** ** Further properties of the element operations and the operators *)

Section MoreOperators.
Local Open Scope Z_scope.
Implicit Types (a b m : SparseMatrix) (obj : list (key * Z)).

Lemma keys_set m r c v :
  (elements (setMatrixElement m r c v)).*1
  = if decide ((r, c) ∈ (elements m).*1) then (elements m).*1
    else (elements m).*1 ++ [(r, c)].
Proof.
  simpl. case_decide as Hin.
  - now apply obj_set_keys_old.
  - rewrite obj_set_new by assumption. now rewrite fmap_app.
Qed.

Lemma elem_keys_set m r c v k :
  k ∈ (elements (setMatrixElement m r c v)).*1
  <-> k = (r, c) \/ k ∈ (elements m).*1.
Proof.
  rewrite keys_set. case_decide as Hin.
  - split; [auto | intros [->|H]; assumption].
  - rewrite elem_of_app, list_elem_of_singleton. tauto.
Qed.

(** X1. A write is read back at its coordinate and leaves the value at
    every other coordinate as it was; it keeps the stored keys in their
    order and adds the key last when it was not stored. *)
Theorem set_then_get m r c v r' c' :
  getMatrixElement (setMatrixElement m r c v) r' c'
  = (if decide ((r, c) = (r', c')) then v else getMatrixElement m r' c')
  /\ (elements (setMatrixElement m r c v)).*1
     = (if decide ((r, c) ∈ (elements m).*1) then (elements m).*1
        else (elements m).*1 ++ [(r, c)]).
Proof. split; [apply get_set | apply keys_set]. Qed.

(** X2. Addition commutes: on valid matrices of equal extents the two sums
    succeed, have the same extents and the same value at every coordinate
    (the stored elements may come in another order). *)
Theorem add_commutes a b :
  valid a -> valid b -> rows a = rows b -> cols a = cols b ->
  exists m m',
    addMatrices a b = Return m /\ addMatrices b a = Return m'
    /\ rows m = rows m' /\ cols m = cols m'
    /\ forall i j, getMatrixElement m i j = getMatrixElement m' i j.
Proof.
  intros Ha Hb Hr Hc.
  destruct (addMatrices_valid a b Ha Hb Hr Hc) as (m & Hm & _ & Rm & Cm & Gm).
  destruct (addMatrices_valid b a Hb Ha) as (m' & Hm' & _ & Rm' & Cm' & Gm');
    [congruence .. |].
  exists m, m'. do 2 (split; [assumption|]).
  split; [congruence|]. split; [congruence|].
  intros i j. rewrite Gm, Gm'. lia.
Qed.

Lemma add_commutes_witness :
  valid Samples.A /\ valid Samples.A'
  /\ exists m m',
       addMatrices Samples.A Samples.A' = Return m
       /\ addMatrices Samples.A' Samples.A = Return m'
       /\ rows m = rows m' /\ cols m = cols m'
       /\ forall i j, getMatrixElement m i j = getMatrixElement m' i j.
Proof.
  assert (valid Samples.A) as Ha by (apply check_valid_sound; reflexivity).
  assert (valid Samples.A') as Hb by (apply check_valid_sound; reflexivity).
  split; [exact Ha|]. split; [exact Hb|].
  exact (add_commutes Samples.A Samples.A' Ha Hb eq_refl eq_refl).
Defined.

Lemma filter_agree {X} (P Q : X -> Prop) `{!forall x, Decision (P x)}
    `{!forall x, Decision (Q x)} (l : list X) :
  (forall x, x ∈ l -> (P x <-> Q x)) -> filter P l = filter Q l.
Proof.
  induction l as [|x l IH]; intros Hagree; [reflexivity|].
  rewrite !filter_cons.
  assert (filter P l = filter Q l) as ->
    by (apply IH; intros y Hy; apply Hagree; now right).
  pose proof (Hagree x (list_elem_of_here x l)) as Hx.
  destruct (decide (P x)), (decide (Q x)); try reflexivity; tauto.
Qed.

Lemma accumulate_elements_keys op src m :
  NoDup src.*1 ->
  (elements (accumulate_elements op src m)).*1
  = (elements m).*1 ++ filter (fun k => k ∉ (elements m).*1) src.*1.
Proof.
  revert m. induction src as [|[[r c] v] src IH]; intros m; csimpl.
  - intros _. now rewrite app_nil_r.
  - rewrite NoDup_cons. intros [Hk Hnd].
    change (accumulate_elements op (((r, c), v) :: src) m)
      with (accumulate_elements op src
              (setMatrixElement m r c (op (getMatrixElement m r c) v))).
    rewrite (IH _ Hnd), keys_set. rewrite filter_cons.
    destruct (decide ((r, c) ∈ (elements m).*1)) as [Hin|Hout].
    + now rewrite decide_False by tauto.
    + rewrite decide_True by assumption. rewrite <- app_assoc. simpl.
      do 2 f_equal. apply filter_agree. intros k Hk'.
      rewrite not_elem_of_app, list_elem_of_singleton.
      split; [tauto|]. intros Hne. split; [assumption|]. congruence.
Qed.

(** X3. Addition and subtraction drop no element: on valid matrices of
    equal extents the result stores the keys of the first operand, in their
    order, followed by the keys of the second operand that the first does
    not store, whatever the values are (a sum or difference that is zero
    stays stored). *)
Theorem add_subtract_keep_keys a b :
  valid a -> valid b -> rows a = rows b -> cols a = cols b ->
  exists sum diff,
    addMatrices a b = Return sum /\ subtractMatrices a b = Return diff
    /\ (elements sum).*1
       = (elements a).*1
         ++ filter (fun k => k ∉ (elements a).*1) (elements b).*1
    /\ (elements diff).*1 = (elements sum).*1.
Proof.
  intros Ha Hb Hr Hc. rewrite addMatrices_loops, subtractMatrices_loops.
  rewrite (proj2 (dimensions_differ_false a b)) by auto.
  rewrite (copy_elements_valid a Ha). eexists _, _.
  split; [reflexivity|]. split; [reflexivity|].
  rewrite !accumulate_elements_keys by apply Hb. auto.
Qed.

Lemma add_subtract_keep_keys_witness :
  exists sum diff,
    addMatrices Samples.A Samples.A' = Return sum
    /\ subtractMatrices Samples.A Samples.A' = Return diff
    /\ (elements sum).*1 = [(0, 0); (0, 2); (1, 1); (0, 1)]
    /\ (elements diff).*1 = (elements sum).*1.
Proof.
  apply (add_subtract_keep_keys Samples.A Samples.A');
    try (apply check_valid_sound); reflexivity.
Defined.

Lemma obj_get_middle k v done rest :
  k ∉ done.*1 -> obj_get k (done ++ (k, v) :: rest) = Some v.
Proof.
  induction done as [|[k' v'] done IH]; csimpl.
  - intros _. now rewrite decide_True.
  - rewrite not_elem_of_cons. intros [Hne Hk].
    rewrite decide_False by assumption. auto.
Qed.

Lemma obj_set_middle k v w done rest :
  k ∉ done.*1 ->
  obj_set k w (done ++ (k, v) :: rest) = done ++ (k, w) :: rest.
Proof.
  induction done as [|[k' v'] done IH]; csimpl.
  - intros _. now rewrite decide_True.
  - rewrite not_elem_of_cons. intros [Hne Hk].
    rewrite decide_False by assumption. now rewrite IH.
Qed.

(** The second loop of [addMatrices] and [subtractMatrices] on the elements
    the result already has, in their order. *)
Lemma accumulate_elements_self op rws cls done src :
  NoDup (done ++ src).*1 ->
  (forall r c v, ((r, c), v) ∈ src -> r < rws /\ c < cls) ->
  accumulate_elements op src
    {| rows := rws; cols := cls; elements := done ++ src |}
  = {| rows := rws; cols := cls;
       elements := done ++ map (fun '(k, v) => (k, op v v)) src |}.
Proof.
  revert done. induction src as [|[[r c] v] src IH]; intros done Hnd Hin;
    [reflexivity|].
  assert ((r, c) ∉ done.*1) as Hk.
  { rewrite fmap_app, NoDup_app in Hnd. destruct Hnd as (_ & Hdis & _).
    intros Hk. apply (Hdis _ Hk). left. }
  destruct (Hin r c v) as [Hr Hc]; [left|].
  change (accumulate_elements op (((r, c), v) :: src) ?x)
    with (accumulate_elements op src
            (setMatrixElement x r c (op (getMatrixElement x r c) v))).
  unfold getMatrixElement, setMatrixElement. cbn [rows cols elements].
  rewrite obj_get_middle, obj_set_middle by assumption.
  rewrite (proj2 (Z.leb_gt rws r)), (proj2 (Z.leb_gt cls c)) by assumption.
  rewrite (cons_middle _ done src), app_assoc. rewrite IH.
  - now rewrite <- app_assoc.
  - rewrite <- app_assoc, fmap_app in *. exact Hnd.
  - intros r' c' v' H'. apply (Hin r' c' v'). now right.
Qed.

(** X4. A valid matrix minus itself keeps every stored element, in order,
    with the value 0: differences that vanish are stored as zeros, not
    removed. *)
Theorem subtract_self a :
  valid a ->
  subtractMatrices a a
  = Return {| rows := rows a; cols := cols a;
              elements := map (fun '(k, _) => (k, 0)) (elements a) |}.
Proof.
  intros Ha. rewrite subtractMatrices_loops.
  rewrite (proj2 (dimensions_differ_false a a)) by auto.
  rewrite (copy_elements_valid a Ha). f_equal.
  destruct a as [rws cls els]. destruct Ha as [Hu He].
  unfold unique_keys, in_extents in *. cbn [rows cols elements] in *.
  pose proof (accumulate_elements_self Z.sub rws cls [] els Hu) as Hs.
  cbn [app] in Hs. rewrite Hs.
  - f_equal. apply map_ext. intros [k v]. f_equal. lia.
  - intros r c v Hin. apply He in Hin. lia.
Qed.

Lemma subtract_self_witness :
  subtractMatrices Samples.A Samples.A
  = Return {| rows := 2; cols := 3;
              elements := [((0, 0), 0); ((0, 2), 0); ((1, 1), 0)] |}.
Proof.
  apply (subtract_self Samples.A). apply check_valid_sound. reflexivity.
Defined.

Lemma multiply_row_keys skip b row col value res k' :
  k' ∈ (elements (multiply_row skip b row col value res)).*1
  <-> k' ∈ (elements res).*1
      \/ exists k, k' = (row, k) /\ 0 <= k < cols b
                   /\ skip && (getMatrixElement b col k =? 0) = false.
Proof.
  unfold multiply_row.
  assert (forall ks res,
    k' ∈ (elements
            (fold_left (fun result k =>
               let otherValue := getMatrixElement b col k in
               if skip && (otherValue =? 0) then result
               else
                 let currentValue := getMatrixElement result row k in
                 setMatrixElement result row k
                   (currentValue + value * otherValue)) ks res)).*1
    <-> k' ∈ (elements res).*1
        \/ exists k, k' = (row, k) /\ k ∈ ks
                     /\ skip && (getMatrixElement b col k =? 0) = false)
    as Hloop.
  { clear res. induction ks as [|k ks IH]; intros res; cbn [fold_left].
    - split; [auto|]. intros [H|(k & _ & []%elem_of_nil & _)]. exact H.
    - rewrite IH. cbv zeta.
      destruct (skip && (getMatrixElement b col k =? 0)) eqn:E.
      + split.
        * intros [H|(k0 & -> & Hk0 & E0)]; [auto|]. right. exists k0.
          split; [reflexivity|]. split; [now right | assumption].
        * intros [H|(k0 & -> & Hk0 & E0)]; [auto|].
          apply elem_of_cons in Hk0 as [->|Hk0]; [congruence|].
          right. eauto.
      + rewrite elem_keys_set. split.
        * intros [[->|H]|(k0 & -> & Hk0 & E0)].
          -- right. exists k. split; [reflexivity|]. split; [left | assumption].
          -- auto.
          -- right. exists k0. split; [reflexivity|].
             split; [now right | assumption].
        * intros [H|(k0 & -> & Hk0 & E0)]; [auto|].
          apply elem_of_cons in Hk0 as [->|Hk0]; [auto|]. right. eauto. }
  rewrite Hloop. split; intros [H|(k & -> & Hk & E)]; auto; right; exists k;
    (split; [reflexivity|]); (split; [|assumption]).
  - apply elem_of_seqZ in Hk. lia.
  - apply elem_of_seqZ. lia.
Qed.

Lemma multiply_rows_keys skip b src res k' :
  k' ∈ (elements
          (fold_left (fun result '((row, col), value) =>
                        multiply_row skip b row col value result) src res)).*1
  <-> k' ∈ (elements res).*1
      \/ exists row col value k,
           ((row, col), value) ∈ src /\ k' = (row, k) /\ 0 <= k < cols b
           /\ skip && (getMatrixElement b col k =? 0) = false.
Proof.
  revert res. induction src as [|[[r c] v] src IH]; intros res; cbn [fold_left].
  - split; [auto|]. intros [H|(? & ? & ? & ? & []%elem_of_nil & _)]. exact H.
  - rewrite IH, multiply_row_keys. split.
    + intros [[H|(k & -> & Hk & E)]|(r0 & c0 & v0 & k & Hin & -> & Hk & E)].
      * auto.
      * right. exists r, c, v, k. split; [left | auto].
      * right. exists r0, c0, v0, k. split; [now right | auto].
    + intros [H|(r0 & c0 & v0 & k & Hin & -> & Hk & E)]; [auto|].
      apply elem_of_cons in Hin as [[= -> -> ->]|Hin].
      * left. right. eauto.
      * right. exists r0, c0, v0, k. auto.
Qed.

(** X5. The product stores a coordinate [(i, j)] exactly when some stored
    element of row [i] of the first matrix meets a value that is not zero in
    column [j] of the second, within its columns: a zero of the second
    matrix, stored or not, never makes an entry. *)
Theorem multiply_stored_keys a b :
  cols a = rows b ->
  exists m,
    multiplyMatrices a b = Return m
    /\ forall i j,
         (i, j) ∈ (elements m).*1
         <-> exists col v,
               ((i, col), v) ∈ elements a /\ 0 <= j < cols b
               /\ getMatrixElement b col j <> 0.
Proof.
  intros Hdim. rewrite multiplyMatrices_loops. unfold multiply_with.
  rewrite (proj2 (Z.eqb_eq _ _) Hdim). cbn [negb].
  eexists. split; [reflexivity|]. intros i j.
  rewrite multiply_rows_keys. cbn [createSparseMatrix elements fmap list_fmap].
  split.
  - intros [[]%elem_of_nil|(r & c & v & k & Hin & [= -> ->] & Hk & E)].
    exists c, v. rewrite andb_true_l in E. apply Z.eqb_neq in E. auto.
  - intros (c & v & Hin & Hj & E). right. exists i, c, v, j.
    rewrite andb_true_l. apply Z.eqb_neq in E. auto.
Qed.

Lemma multiply_stored_keys_witness :
  exists m,
    multiplyMatrices Samples.A Samples.B = Return m
    /\ forall i j,
         (i, j) ∈ (elements m).*1
         <-> exists col v,
               ((i, col), v) ∈ elements Samples.A /\ 0 <= j < 2
               /\ getMatrixElement Samples.B col j <> 0.
Proof. exact (multiply_stored_keys Samples.A Samples.B eq_refl). Defined.



End MoreOperators.

(** ** Further properties of the text format *)

Section MoreCodec.
Import More.
Local Open Scope Z_scope.

(** What the claim on the round trip rests on, for use below. *)
Lemma load_text_of_valid m :
  valid m -> 0 <= rows m -> 0 <= cols m ->
  loadMatrixFromFile (matrixToString m) = Return m.
Proof.
  intros Hm Hr Hc. rewrite matrixToString_lines.
  unfold loadMatrixFromFile.
  rewrite split_on_join by (discriminate || apply matrix_lines_line).
  unfold matrix_lines.
  destruct (dimension_text_trimmed (str "rows=") (rows m)) as [_ Tr];
    [discriminate | reflexivity |].
  destruct (dimension_text_trimmed (str "cols=") (cols m)) as [_ Tc];
    [discriminate | reflexivity |].
  rewrite (trim_trimmed _ Tr), (trim_trimmed _ Tc).
  rewrite !match_dimension_text, !parseInt_show_Z by assumption.
  rewrite load_elements_text.
  - now rewrite copy_elements_valid.
  - intros r c v Hin. apply (proj2 Hm) in Hin. lia.
Qed.






(** X9. The text determines the matrix: two valid matrices with
    non-negative extents that have the same text are the same matrix, order
    of the stored elements included. *)
Theorem text_determines_matrix m m' :
  valid m -> 0 <= rows m -> 0 <= cols m ->
  valid m' -> 0 <= rows m' -> 0 <= cols m' ->
  matrixToString m = matrixToString m' -> m = m'.
Proof.
  intros Hm Hr Hc Hm' Hr' Hc' E.
  pose proof (load_text_of_valid m Hm Hr Hc) as H.
  rewrite E, (load_text_of_valid m' Hm' Hr' Hc') in H. congruence.
Qed.

Lemma text_determines_matrix_witness :
  Samples.B = {| rows := 3; cols := 2;
                 elements := [((0, 0), 5); ((1, 1), 0); ((2, 0), 7)] |}.
Proof.
  apply (text_determines_matrix Samples.B);
    try (apply check_valid_sound; reflexivity); try (simpl; lia).
  reflexivity.
Defined.

Lemma not_passes line :
  ~ passes line <->
  trim line <> [] /\ ~ begins_with element_form (trim line).
Proof. unfold passes. tauto. Qed.

(** The element loop stops at the first line that does not pass, with its
    number, counted from 1, and its trimmed text. *)
Lemma load_elements_first i lines m e :
  load_elements i lines m = Throw e <->
  exists (j : nat) l,
    lines !! j = Some l
    /\ e = InvalidFormatAtLine (i + j + 1) (trim l)
    /\ ~ passes l
    /\ forall (j' : nat) l', (j' < j)%nat -> lines !! j' = Some l' -> passes l'.
Proof.
  revert i m. induction lines as [|l lines IH]; intros i m.
  - split; [discriminate | intros (j & l & [=] & _)].
  - cbn [load_elements].
    assert (forall P : Prop,
              passes l ->
              ((exists (j : nat) l0,
                  lines !! j = Some l0
                  /\ e = InvalidFormatAtLine (S i + j + 1) (trim l0)
                  /\ ~ passes l0
                  /\ forall (j' : nat) l', (j' < j)%nat ->
                        lines !! j' = Some l' -> passes l')
               <-> exists (j : nat) l0,
                  (l :: lines) !! j = Some l0
                  /\ e = InvalidFormatAtLine (i + j + 1) (trim l0)
                  /\ ~ passes l0
                  /\ forall (j' : nat) l', (j' < j)%nat ->
                        (l :: lines) !! j' = Some l' -> passes l'))
      as Hshift.
    { intros _ Hl. split.
      - intros (j & l0 & Hj & -> & Hbad & Hbefore).
        exists (S j), l0. split; [exact Hj|].
        split; [f_equal; lia|]. split; [assumption|].
        intros [|j'] l' Hlt Hj'; simpl in Hj'.
        + now injection Hj' as <-.
        + apply (Hbefore j'); [lia | assumption].
      - intros ([|j] & l0 & Hj & -> & Hbad & Hbefore); simpl in Hj.
        + injection Hj as <-. tauto.
        + exists j, l0. split; [exact Hj|]. split; [f_equal; lia|].
          split; [assumption|]. intros j' l' Hlt Hj'.
          apply (Hbefore (S j')); [lia | exact Hj']. }
    destruct (trim l) as [|x t] eqn:Hl.
    + rewrite IH. apply (Hshift True). left. exact Hl.
    + destruct (match_element (x :: t)) as [[[r c] v]|] eqn:Hm.
      * rewrite IH. apply (Hshift True). right. rewrite Hl.
        apply match_element_begins. rewrite Hm. eauto.
      * assert (~ passes l) as Hbad.
        { apply not_passes. rewrite Hl. split; [discriminate|].
          now apply match_element_None. }
        split.
        -- intros [= <-]. exists 0%nat, l. split; [reflexivity|].
           split; [rewrite Hl; f_equal; lia|]. split; [assumption|].
           intros j' l' Hlt. lia.
        -- intros ([|j] & l0 & Hj & -> & _ & Hbefore); simpl in Hj.
           ++ injection Hj as <-. rewrite Hl. do 2 f_equal. lia.
           ++ exfalso. apply Hbad. apply (Hbefore 0%nat); [lia | reflexivity].
Qed.

(** X10. A text is rejected with [Invalid format at line n] exactly when
    its two header lines are accepted and line [n], counted from 1 and at
    least the third, is the first line after the header that is neither
    blank nor the start of an element triple; the message quotes that line
    trimmed. *)
Theorem element_error_line text n line :
  loadMatrixFromFile text = Throw (InvalidFormatAtLine n line) <->
  exists l,
    (3 <= n)%nat /\ split_on LF text !! (n - 1)%nat = Some l
    /\ line = trim l /\ ~ passes l
    /\ begins_with (dimension_form (str "rows="))
         (trim (nth 0 (split_on LF text) []))
    /\ begins_with (dimension_form (str "cols="))
         (trim (nth 1 (split_on LF text) []))
    /\ forall (j : nat) l',
         (2 <= j < n - 1)%nat -> split_on LF text !! j = Some l' -> passes l'.
Proof.
  unfold loadMatrixFromFile.
  destruct (split_on LF text) as [|l0 [|l1 rest]]; cbn [nth].
  - split; [discriminate|]. intros (l & _ & H & _).
    now rewrite lookup_nil in H.
  - split; [discriminate|]. intros (l & Hn & H & _).
    destruct n as [|[|[|n]]]; try lia; discriminate.
  - destruct (match_dimension (str "rows=") (trim l0)) as [tr|] eqn:Hr.
    2:{ split; [discriminate|]. intros (_ & _ & _ & _ & _ & H & _).
        apply match_dimension_begins in H as [? H]. congruence. }
    destruct (match_dimension (str "cols=") (trim l1)) as [tc|] eqn:Hc.
    2:{ split; [discriminate|]. intros (_ & _ & _ & _ & _ & _ & H & _).
        apply match_dimension_begins in H as [? H]. congruence. }
    rewrite load_elements_first. split.
    + intros (j & l & Hj & [= -> ->] & Hbad & Hbefore). exists l.
      split; [lia|].
      split;
        [match goal with |- _ !! ?k = _ => replace k with (S (S j)) by lia end;
         exact Hj|].
      split; [reflexivity|]. split; [assumption|].
      split; [apply match_dimension_begins; eauto|].
      split; [apply match_dimension_begins; eauto|].
      intros [|[|j']] l' Hrange Hj'; try lia.
      apply (Hbefore j'); [lia | exact Hj'].
    + intros (l & Hn & Hl & -> & Hbad & _ & _ & Hbefore).
      destruct n as [|[|[|j]]]; try lia.
      exists j, l. split; [exact Hl|]. split; [f_equal; lia|].
      split; [assumption|]. intros j' l' Hlt Hj'.
      apply (Hbefore (S (S j'))); [lia | exact Hj'].
Qed.

Lemma element_error_line_witness :
  loadMatrixFromFile
    (join LF [str "rows=2"; str "cols=2"; []; str "(0,0,5)"; str " (1;1) "])
  = Throw (InvalidFormatAtLine 5 (str "(1;1)")).
Proof.
  apply (element_error_line _ 5%nat (str "(1;1)")).
  exists (str " (1;1) "). split; [lia|]. split; [reflexivity|].
  split; [reflexivity|]. split.
  { apply not_passes. split; [discriminate|].
    apply match_element_None. reflexivity. }
  split; [apply match_dimension_begins; vm_compute; eauto|].
  split; [apply match_dimension_begins; vm_compute; eauto|].
  intros [|[|[|[|j]]]] l' Hj; try lia.
  - intros [= <-]. left. reflexivity.
  - intros [= <-]. right. apply match_element_begins. vm_compute. eauto.
Defined.

Lemma split_on_nonempty sep s : exists l ls, split_on sep s = l :: ls.
Proof.
  induction s as [|c s (l & ls & IH)]; simpl; [eauto|].
  destruct (c =? sep)%N; [eauto|]. rewrite IH. eauto.
Qed.

Lemma split_on_two sep s :
  sep ∈ s -> exists l0 l1 rest, split_on sep s = l0 :: l1 :: rest.
Proof.
  induction s as [|c s IH]; [intros []%elem_of_nil|].
  simpl. destruct (N.eqb_spec c sep) as [->|Hne].
  - intros _. destruct (split_on_nonempty sep s) as (l & ls & ->). eauto.
  - rewrite elem_of_cons. intros [->|Hin]; [congruence|].
    destruct (IH Hin) as (l0 & l1 & rest & ->). eauto.
Qed.

(** X11. Which header error a text gets: [not enough lines] exactly when
    the text has no line feed; [invalid dimension format] exactly when it
    has one and its first line does not start with [rows=] and a number or
    its second line does not start with [cols=] and a number, whatever the
    lines after the second are. *)
Theorem header_errors text :
  (loadMatrixFromFile text = Throw NotEnoughLines <-> LF ∉ text)
  /\ (loadMatrixFromFile text = Throw InvalidDimensionFormat <->
      LF ∈ text
      /\ (~ begins_with (dimension_form (str "rows="))
             (trim (nth 0 (split_on LF text) []))
          \/ ~ begins_with (dimension_form (str "cols="))
                (trim (nth 1 (split_on LF text) [])))).
Proof.
  unfold loadMatrixFromFile.
  destruct (decide (LF ∈ text)) as [Hin|Hout].
  - destruct (split_on_two LF text Hin) as (l0 & l1 & rest & ->). cbn [nth].
    rewrite <- !match_dimension_None.
    destruct (match_dimension (str "rows=") (trim l0)) as [tr|];
      [destruct (match_dimension (str "cols=") (trim l1)) as [tc|]|].
    + split; (split; [intros H|]).
      * destruct (outcome_cases
                    (load_elements 2 rest
                       (createSparseMatrix (parseInt tr) (parseInt tc))))
          as [[m Hm]|[e He]]; [congruence|].
        rewrite H in He. apply load_elements_first in H
          as (j & l & _ & [=] & _).
      * tauto.
      * apply load_elements_first in H as (j & l & _ & [=] & _).
      * intros [_ [[=]|[=]]].
    + split; (split; [try discriminate; auto|]); [tauto|].
      intros _. reflexivity.
    + split; (split; [try discriminate; auto|]); [tauto|].
      intros _. reflexivity.
  - rewrite (split_on_none LF text Hout).
    split; (split; [try discriminate; auto|]); [auto | tauto].
Qed.

Lemma load_elements_trim i lines lines' m :
  map trim lines = map trim lines' ->
  load_elements i lines m = load_elements i lines' m.
Proof.
  revert i lines' m. induction lines as [|l lines IH];
    intros i [|l' lines'] m; try discriminate; [reflexivity|].
  intros [= Hl Hls]. cbn [load_elements]. rewrite <- Hl.
  destruct (trim l); [now apply IH|].
  destruct (match_element _) as [[[r c] v]|]; [now apply IH | reflexivity].
Qed.

Lemma load_trim_lines text text' :
  map trim (split_on LF text) = map trim (split_on LF text') ->
  loadMatrixFromFile text = loadMatrixFromFile text'.
Proof.
  unfold loadMatrixFromFile.
  destruct (split_on LF text) as [|l0 [|l1 rest]],
    (split_on LF text') as [|l0' [|l1' rest']]; try discriminate;
    try reflexivity.
  intros [= H0 H1 Hrest]. rewrite <- H0, <- H1.
  destruct (match_dimension _ (trim l0)); [|reflexivity].
  destruct (match_dimension _ (trim l1)); [|reflexivity].
  now apply load_elements_trim.
Qed.

(** X12. White space around the lines does not matter: two texts whose
    lines are the same after trimming are read as the same matrix or
    rejected with the same error. *)
Theorem load_up_to_trim text text' :
  map trim (split_on LF text) = map trim (split_on LF text') ->
  loadMatrixFromFile text = loadMatrixFromFile text'.
Proof. apply load_trim_lines. Qed.

Lemma load_up_to_trim_witness :
  loadMatrixFromFile
    (join LF [9%N :: str "rows=1  "; str "cols=1"; str "   (0,0,4)"])
  = loadMatrixFromFile (join LF [str "rows=1"; str "cols=1"; str "(0,0,4)"]).
Proof. apply load_up_to_trim. reflexivity. Defined.

Lemma drop_while_snoc p l x :
  p x = true ->
  drop_while p (l ++ [x])
  = match drop_while p l with [] => [] | d => d ++ [x] end.
Proof.
  intros Hx. induction l as [|c l IH]; simpl; [now rewrite Hx|].
  destruct (p c); [exact IH | reflexivity].
Qed.

Lemma trim_snoc l x : is_space x = true -> trim (l ++ [x]) = trim l.
Proof.
  intros Hx. unfold trim. rewrite (drop_while_snoc _ _ _ Hx).
  destruct (drop_while is_space l) as [|c d]; [reflexivity|].
  rewrite rev_app_distr. simpl rev at 1. simpl app. cbn [drop_while].
  now rewrite Hx.
Qed.

Lemma split_on_crlf text :
  Forall2 (fun l' l => l' = l \/ l' = l ++ [CR])
    (split_on LF (crlf text)) (split_on LF text).
Proof.
  induction text as [|c text IH]; [repeat constructor|].
  unfold crlf in *. cbn [flat_map]. cbn [split_on].
  destruct (N.eqb_spec c LF) as [->|Hne].
  - simpl app. cbn [split_on]. change (CR =? LF)%N with false.
    rewrite N.eqb_refl. cbv iota.
    constructor; [right; reflexivity | exact IH].
  - simpl app. cbn [split_on]. rewrite (proj2 (N.eqb_neq c LF) Hne).
    inversion IH as [E' E | l' l ls' ls Hl Hrest E' E].
    + repeat constructor.
    + constructor; [|assumption].
      destruct Hl as [-> | ->]; [left | right]; reflexivity.
Qed.

(** X13. Windows line endings are read like plain line feeds: a text with a
    carriage return before every line feed is read as the same matrix, or
    rejected with the same error, as the text without them. *)
Theorem load_crlf text :
  loadMatrixFromFile (crlf text) = loadMatrixFromFile text.
Proof.
  apply load_trim_lines.
  induction (split_on_crlf text) as [|l' l ls' ls Hl _ IH]; [reflexivity|].
  cbn [map]. rewrite IH. f_equal.
  destruct Hl as [-> | ->]; [reflexivity | now apply trim_snoc].
Qed.

End MoreCodec.

(** ** The program: files, questions and the console *)

Section MoreProgram.
Import More Program.
Local Open Scope Z_scope.

Lemma runs_bind {A B} (m : io A) (k : A -> io B) tr b :
  runs (bind m k) tr b <->
  exists tr1 tr2 a, tr = tr1 ++ tr2 /\ runs m tr1 a /\ runs (k a) tr2 b.
Proof.
  revert tr. induction m as [a|q k' IH|t k' IH|p k' IH|p c k' IH|k' IH];
    intros tr; cbn [bind runs].
  - split.
    + intros H. exists [], tr, a. auto.
    + intros (tr1 & tr2 & a' & -> & [-> ->] & H). exact H.
  - split.
    + intros (ans & rest & -> & (tr1 & tr2 & a & -> & H1 & H2)%IH).
      exists (Asked q ans :: tr1), tr2, a. split; [reflexivity|].
      split; [eauto | assumption].
    + intros (tr1 & tr2 & a & -> & (ans & rest & -> & H1) & H2).
      exists ans, (rest ++ tr2). split; [reflexivity|]. apply IH. eauto 6.
  - split.
    + intros (rest & -> & (tr1 & tr2 & a & -> & H1 & H2)%IH).
      exists (Logged t :: tr1), tr2, a. split; [reflexivity|].
      split; [eauto | assumption].
    + intros (tr1 & tr2 & a & -> & (rest & -> & H1) & H2).
      exists (rest ++ tr2). split; [reflexivity|]. apply IH. eauto 6.
  - split.
    + intros (r & rest & -> & (tr1 & tr2 & a & -> & H1 & H2)%IH).
      exists (Read p r :: tr1), tr2, a. split; [reflexivity|].
      split; [eauto | assumption].
    + intros (tr1 & tr2 & a & -> & (r & rest & -> & H1) & H2).
      exists r, (rest ++ tr2). split; [reflexivity|]. apply IH. eauto 6.
  - split.
    + intros (r & rest & -> & (tr1 & tr2 & a & -> & H1 & H2)%IH).
      exists (Wrote p c r :: tr1), tr2, a. split; [reflexivity|].
      split; [eauto | assumption].
    + intros (tr1 & tr2 & a & -> & (r & rest & -> & H1) & H2).
      exists r, (rest ++ tr2). split; [reflexivity|]. apply IH. eauto 6.
  - split.
    + intros (rest & -> & (tr1 & tr2 & a & -> & H1 & H2)%IH).
      exists (Closed :: tr1), tr2, a. split; [reflexivity|].
      split; [eauto | assumption].
    + intros (tr1 & tr2 & a & -> & (rest & -> & H1) & H2).
      exists (rest ++ tr2). split; [reflexivity|]. apply IH. eauto 6.
Qed.


Lemma runs_bind_ok {A B} (m : io (failure + A)) (k : A -> io (failure + B))
    tr r :
  runs (bind_ok m k) tr r <->
  (exists f, runs m tr (inl f) /\ r = inl f)
  \/ (exists tr1 tr2 a, tr = tr1 ++ tr2 /\ runs m tr1 (inr a)
                        /\ runs (k a) tr2 r).
Proof.
  unfold bind_ok. rewrite runs_bind. split.
  - intros (tr1 & tr2 & [f|a] & -> & H1 & H2).
    + destruct H2 as [-> ->]. left. exists f. now rewrite app_nil_r.
    + right. eauto 6.
  - intros [(f & H & ->) | (tr1 & tr2 & a & -> & H1 & H2)].
    + exists tr, [], (inl f). rewrite app_nil_r. repeat split; auto.
    + exists tr1, tr2, (inr a). auto.
Qed.

Lemma runs_log {F} text tr (r : F + unit) :
  runs (log text) tr r <-> tr = [Logged text] /\ r = inr tt.
Proof.
  unfold log. cbn [runs]. split.
  - intros (rest & -> & -> & ->). auto.
  - intros [-> ->]. eauto.
Qed.

Lemma runs_askQuestion {F} query tr (r : F + jsstring) :
  runs (askQuestion query) tr r <->
  exists answer, tr = [Asked query answer] /\ r = inr answer.
Proof.
  unfold askQuestion. cbn [runs]. split.
  - intros (answer & rest & -> & -> & ->). eauto.
  - intros (answer & -> & ->). eauto 6.
Qed.

Lemma runs_loadMatrixFromFile path tr r :
  runs (loadMatrixFromFile path) tr r <->
  exists x, tr = [Read path x] /\ r = loaded path x.
Proof.
  unfold loadMatrixFromFile, bind_ok, readFileSync, throw, loaded.
  cbn [bind runs]. split.
  - intros (x & rest & -> & H). exists x.
    destruct x as [content|e]; cbn [bind runs] in H.
    + destruct (Matrix.loadMatrixFromFile content); cbn [bind runs] in H;
        destruct H as [-> ->]; auto.
    + destruct (enoent e); cbn [runs] in H; destruct H as [-> ->]; auto.
  - intros (x & -> & ->). exists x, []. split; [reflexivity|].
    destruct x as [content|e]; cbn [bind runs].
    + destruct (Matrix.loadMatrixFromFile content); cbn [bind runs]; auto.
    + destruct (enoent e); cbn [runs]; auto.
Qed.

Lemma runs_saveMatrixToFile m path tr r :
  runs (saveMatrixToFile m path) tr r <->
  exists w, tr = [Wrote path (matrixToString m) w]
            /\ r = match w with None => inr tt | Some e => inl (FsError e) end.
Proof.
  unfold saveMatrixToFile, writeFileSync. cbn [runs]. split.
  - intros (w & rest & -> & H). exists w.
    destruct w; cbn [runs] in H; destruct H as [-> ->]; auto.
  - intros (w & -> & ->). exists w, []. split; [reflexivity|].
    destruct w; cbn [runs]; auto.
Qed.

Lemma runs_throw {A} f tr (r : failure + A) :
  runs (throw f) tr r <-> tr = [] /\ r = inl f.
Proof. reflexivity. Qed.

Ltac run_step lem :=
  apply runs_bind_ok; right; eexists _, _, _;
  split; [|split; [apply lem; eauto|]]; [reflexivity|].

Lemma runs_log_menu tr r :
  runs (log_menu matrixOperations) tr r <->
  tr = [Logged (str "a: addition"); Logged (str "b: subtraction");
        Logged (str "c: multiplication")] /\ r = inr tt.
Proof.
  unfold matrixOperations. cbn [log_menu name]. split.
  - intros H.
    apply runs_bind_ok in H
      as [(f & [_ [=]]%runs_log & _) | (? & ? & [] & -> & [-> _]%runs_log & H)].
    apply runs_bind_ok in H
      as [(f & [_ [=]]%runs_log & _) | (? & ? & [] & -> & [-> _]%runs_log & H)].
    apply runs_bind_ok in H
      as [(f & [_ [=]]%runs_log & _) | (? & ? & [] & -> & [-> _]%runs_log & H)].
    destruct H as [-> ->]. split; reflexivity.
  - intros [-> ->].
    apply runs_bind_ok; right. eexists [Logged (str "a: addition")], _, tt.
    split; [reflexivity|]. split; [now apply runs_log|].
    apply runs_bind_ok; right. eexists [Logged (str "b: subtraction")], _, tt.
    split; [reflexivity|]. split; [now apply runs_log|].
    apply runs_bind_ok; right. eexists [Logged (str "c: multiplication")], _, tt.
    split; [reflexivity|]. split; [now apply runs_log|].
    split; reflexivity.
Qed.

Lemma attempt_eq inh tr tr' r r' :
  attempt inh tr r -> tr = tr' -> r = r' -> attempt inh tr' r'.
Proof. now intros H <- <-. Qed.

Lemma runs_interaction inh tr r :
  runs (interaction inh) tr r <-> attempt inh tr r.
Proof.
  unfold interaction. split.
  - intros H.
    apply runs_bind_ok in H
      as [(f & [_ [=]]%runs_log & _) | (? & ? & [] & -> & [-> _]%runs_log & H)].
    apply runs_bind_ok in H
      as [(f & [_ [=]]%runs_log_menu & _)
         | (? & ? & [] & -> & [-> _]%runs_log_menu & H)].
    apply runs_bind_ok in H
      as [(f & (? & _ & [=])%runs_askQuestion & _)
         | (? & ? & path1 & -> & (? & -> & [= <-])%runs_askQuestion & H)].
    apply runs_bind_ok in H
      as [(f & (r1 & -> & Hf)%runs_loadMatrixFromFile & ->)
         | (? & ? & matrix1 & -> & (r1 & -> & H1)%runs_loadMatrixFromFile & H)].
    { eapply attempt_eq; [apply (attempt_first inh path1 r1 f); auto|..];
        reflexivity. }
    apply runs_bind_ok in H
      as [(f & (? & _ & [=])%runs_askQuestion & _)
         | (? & ? & path2 & -> & (? & -> & [= <-])%runs_askQuestion & H)].
    apply runs_bind_ok in H
      as [(f & (r2 & -> & Hf)%runs_loadMatrixFromFile & ->)
         | (? & ? & matrix2 & -> & (r2 & -> & H2)%runs_loadMatrixFromFile & H)].
    { eapply attempt_eq;
        [apply (attempt_second inh path1 r1 matrix1 path2 r2 f); auto|..];
        reflexivity. }
    apply runs_bind_ok in H
      as [(f & (? & _ & [=])%runs_askQuestion & _)
         | (? & rest3 & choice & -> & (? & -> & [= <-])%runs_askQuestion & H)].
    symmetry in H1, H2.
    assert (forall f, chosen inh choice matrix1 matrix2 = inl f ->
                      rest3 = [] -> r = inl f -> attempt inh
   ([Logged (str "Menu :")] ++
    [Logged (str "a: addition"); Logged (str "b: subtraction");
     Logged (str "c: multiplication")] ++
    [Asked (str "Enter the file path for the first matrix: ") path1] ++
    [Read path1 r1] ++
    [Asked (str "Enter the file path for the second matrix: ") path2] ++
    [Read path2 r2] ++
    [Asked (str "Choose an option (a, b, or c): ") choice] ++ rest3) r) as Hfail.
    { intros f Hch -> ->.
      eapply attempt_eq;
        [apply (attempt_choice inh path1 r1 matrix1 path2 r2 matrix2 choice f);
         assumption|..]; reflexivity. }
    destruct (get_property inh choice) as [op| |] eqn:Hp.
    + destruct (method op matrix1 matrix2) as [m|e] eqn:Hm.
      * apply runs_bind_ok in H
          as [(f & [_ [=]]%runs_log & _)
             | (? & ? & [] & -> & [-> _]%runs_log & H)].
        apply runs_bind_ok in H
          as [(f & (? & _ & [=])%runs_askQuestion & _)
             | (? & ? & out & -> & (? & -> & [= <-])%runs_askQuestion & H)].
        apply runs_saveMatrixToFile in H as (w & -> & ->).
        eapply attempt_eq;
          [apply (attempt_write inh path1 r1 matrix1 path2 r2 matrix2 choice
                    op m out w); try assumption;
           unfold chosen; now rewrite Hp, Hm|..]; reflexivity.
      * apply runs_throw in H as [-> ->].
        apply (Hfail (OperationFailure e)); try reflexivity.
        unfold chosen. now rewrite Hp, Hm.
    + apply runs_throw in H as [-> ->].
      apply (Hfail NotAFunction); try reflexivity.
      unfold chosen. now rewrite Hp.
    + apply runs_throw in H as [-> ->].
      apply (Hfail InvalidOption); try reflexivity.
      unfold chosen. now rewrite Hp.
  - intros H. destruct H as [path1 r1 f H1 | path1 r1 matrix1 path2 r2 f H1 H2
      | path1 r1 matrix1 path2 r2 matrix2 choice f H1 H2 Hch
      | path1 r1 matrix1 path2 r2 matrix2 choice op m out w H1 H2 Hch].
    + run_step @runs_log. run_step runs_log_menu.
      run_step @runs_askQuestion.
      apply runs_bind_ok. left. exists f. split; [|reflexivity].
      apply runs_loadMatrixFromFile. eauto.
    + run_step @runs_log. run_step runs_log_menu.
      run_step @runs_askQuestion. run_step runs_loadMatrixFromFile.
      run_step @runs_askQuestion.
      apply runs_bind_ok. left. exists f. split; [|reflexivity].
      apply runs_loadMatrixFromFile. eauto.
    + run_step @runs_log. run_step runs_log_menu.
      run_step @runs_askQuestion. run_step runs_loadMatrixFromFile.
      run_step @runs_askQuestion. run_step runs_loadMatrixFromFile.
      run_step @runs_askQuestion.
      unfold chosen in Hch. destruct (get_property inh choice) as [op| |];
        [destruct (method op matrix1 matrix2)|..]; try discriminate;
        injection Hch as <-; now apply runs_throw.
    + run_step @runs_log. run_step runs_log_menu.
      run_step @runs_askQuestion. run_step runs_loadMatrixFromFile.
      run_step @runs_askQuestion. run_step runs_loadMatrixFromFile.
      run_step @runs_askQuestion.
      unfold chosen in Hch. destruct (get_property inh choice) as [op'| |];
        [destruct (method op' matrix1 matrix2) eqn:Hm|..]; try discriminate.
      injection Hch as -> ->.
      run_step @runs_log. run_step @runs_askQuestion.
      apply runs_saveMatrixToFile. eauto.
Qed.

(** Every run of the program is a way through the [try] block followed by
    its ending, and the other way round. *)
Lemma runs_session inh tr :
  runs (performMatrixOperations inh) tr tt <-> session inh tr.
Proof.
  unfold performMatrixOperations, session. rewrite runs_bind.
  setoid_rewrite runs_interaction. split.
  - intros (tried & rest & r & -> & Ha & H). exists tried, r.
    split; [assumption|]. f_equal.
    apply runs_bind in H as (t1 & t2 & [] & -> & H1 & H2).
    destruct H2 as (? & -> & -> & _).
    destruct r as [f|[]]; cbn [runs] in H1.
    + destruct H1 as (? & -> & -> & _). reflexivity.
    + destruct H1 as [-> _]. reflexivity.
  - intros (tried & r & Ha & ->). exists tried, (ending r), r.
    split; [reflexivity|]. split; [assumption|].
    apply runs_bind. destruct r as [f|[]].
    + exists [Logged (str "Error: " ++ message f)], [Closed], tt.
      split; [reflexivity|]. cbn [runs]. split; eauto.
    + exists [], [Closed], tt. split; [reflexivity|]. cbn [runs].
      split; eauto.
Qed.

Ltac in_trace H :=
  repeat first
    [ apply elem_of_app in H as [H|H]
    | apply elem_of_cons in H as [H|H]
    | apply elem_of_nil in H; destruct H ].






Lemma chosen_inr inh choice m1 m2 op m :
  chosen inh choice m1 m2 = inr (op, m) ->
  own_property choice matrixOperations = Some op /\ method op m1 m2 = Return m.
Proof.
  unfold chosen, get_property.
  destruct (own_property choice matrixOperations) as [op'|];
    [|destruct (inh choice); discriminate].
  destruct (method op' m1 m2) eqn:E; [|discriminate].
  intros [= <- <-]. auto.
Qed.








Lemma questions_differ :
  question1 <> question3 /\ question2 <> question3 /\ question4 <> question3.
Proof. repeat split; discriminate. Qed.

(** X18. An answer to the third question that is not [a], [b] or [c] ends
    the run at once: the program prints [Error: Invalid option.], or, when
    the answer is the name of a property that the table of operations
    inherits from its prototype ([toString], [constructor], ...),
    [Error: operation.method is not a function]; it closes the interface,
    asks for no output path and writes no file. *)
Theorem program_unknown_option inh tr choice :
  runs (performMatrixOperations inh) tr tt ->
  Asked question3 choice ∈ tr ->
  own_property choice matrixOperations = None ->
  (exists before,
     tr = before
          ++ [Asked question3 choice;
              Logged (str "Error: "
                      ++ (if inh choice
                          then str "operation.method is not a function"
                          else str "Invalid option."));
              Closed])
  /\ forall path content w, Wrote path content w ∉ tr.
Proof.
  intros (tried & r & Ha & ->)%runs_session Hin Hown.
  destruct questions_differ as (Q1 & Q2 & Q4).
  destruct Ha as [path1 r1 f H1 | path1 r1 matrix1 path2 r2 f H1 H2
      | path1 r1 matrix1 path2 r2 matrix2 choice' f H1 H2 Hch
      | path1 r1 matrix1 path2 r2 matrix2 choice' op m out w' H1 H2 Hch].
  - unfold menu, ending in Hin. in_trace Hin; try discriminate Hin;
      congruence.
  - unfold menu, ending in Hin. in_trace Hin; try discriminate Hin;
      congruence.
  - assert (choice' = choice) as ->.
    { unfold menu, ending in Hin. in_trace Hin; try discriminate Hin;
        congruence. }
    unfold chosen, get_property in Hch. rewrite Hown in Hch. split.
    + exists (menu ++ [Asked question1 path1; Read path1 r1;
                       Asked question2 path2; Read path2 r2]).
      destruct (inh choice); injection Hch as <-;
        rewrite <- !app_assoc; reflexivity.
    + intros path content w Hw. unfold menu, ending in Hw.
      in_trace Hw; discriminate Hw.
  - exfalso. assert (choice' = choice) as ->.
    { unfold menu, ending in Hin. destruct w'; in_trace Hin;
        try discriminate Hin; congruence. }
    apply chosen_inr in Hch as [Hop _]. congruence.
Qed.

Lemma program_unknown_option_witness :
  (exists before,
     sample_trace_inherited
     = before
       ++ [Asked question3 (str "toString");
           Logged (str "Error: operation.method is not a function");
           Closed])
  /\ forall path content w, Wrote path content w ∉ sample_trace_inherited.
Proof.
  apply (program_unknown_option in_object_prototype sample_trace_inherited
           (str "toString")).
  - apply runs_session. eexists _, _. split.
    + apply (attempt_choice in_object_prototype
               (str "m1.txt") (inl (matrixToString Samples.A)) Samples.A
               (str "m2.txt") (inl (matrixToString Samples.B)) Samples.B
               (str "toString") NotAFunction); reflexivity.
    + reflexivity.
  - unfold sample_trace_inherited. rewrite elem_of_app. right.
    do 4 apply list_elem_of_further. apply list_elem_of_here.
  - reflexivity.
Defined.



(** *** Runs in a world of plain files *)





(** Every run in a world is a run. *)
Lemma exec_runs {A} (p : io A) w tr w' a :
  exec p w = Some (tr, w', a) -> runs p tr a.
Proof.
  revert w tr. induction p as [x|q k IH|t k IH|p k IH|p c k IH|k IH];
    intros w tr; cbn [exec runs].
  - now intros [= <- _ <-].
  - destruct (answers w) as [|answer rest]; [discriminate|].
    destruct (exec (k answer) _) as [[[tr0 w0] a0]|] eqn:E; [|discriminate].
    intros [= <- <- <-]. apply IH in E. eauto.
  - destruct (exec k w) as [[[tr0 w0] a0]|] eqn:E; [|discriminate].
    intros [= <- <- <-]. apply IH in E. eauto.
  - destruct (exec (k _) w) as [[[tr0 w0] a0]|] eqn:E; [|discriminate].
    intros [= <- <- <-]. apply IH in E. eauto.
  - destruct (exec (k None) _) as [[[tr0 w0] a0]|] eqn:E; [|discriminate].
    intros [= <- <- <-]. apply IH in E. eauto.
  - destruct (exec k w) as [[[tr0 w0] a0]|] eqn:E; [|discriminate].
    intros [= <- <- <-]. apply IH in E. eauto.
Qed.






End MoreProgram.
